(** * show_dhcp: the DHCP lease query of src/op_mode/show_dhcp.py

    A shallow embedding of the script and the properties of its lease
    resolution, enrichment, filtering, ordering and pool statistics.

    Conventions of the embedding:
    - a Python [str] is a [string] (its UTF-8 bytes; byte order is code-point
      order), a Python [int] is a [Z];
    - a naive [datetime] is the number of microseconds since 1970-01-01
      00:00:00, a [timedelta] a number of microseconds;
    - a Python [dict] is an association list in insertion order;
    - exceptions, [exit], [print] and the reads of the journal and of the
      clock are threaded through the monad [M]. *)

From Stdlib Require Import List ZArith String Ascii Bool Lia.
From Stdlib Require Import DecimalString Sorted Permutation SpecFloat.
Import ListNotations.

Open Scope string_scope.
Open Scope list_scope.
Open Scope Z_scope.

(** ** Exceptions and results *)

Inductive exn : Type :=
| SystemExit (code : Z)
| TypeError
| ValueError
| KeyError
| OSError
| OverflowError
| ZeroDivisionError.

Inductive result (A : Type) : Type :=
| Ok (a : A)
| Raise (e : exn).

Arguments Ok {A} a.
Arguments Raise {A} e.

Definition rbind {A B} (r : result A) (k : A -> result B) : result B :=
  match r with
  | Ok a => k a
  | Raise e => Raise e
  end.

Fixpoint rmap {A B} (f : A -> result B) (l : list A) : result (list B) :=
  match l with
  | [] => Ok []
  | x :: l' =>
      rbind (f x) (fun y => rbind (rmap f l') (fun ys => Ok (y :: ys)))
  end.

(** The exit status the interpreter reports for a run. *)
Definition exit_status {A} (r : result A) : Z :=
  match r with
  | Ok _ => 0
  | Raise (SystemExit c) => c
  | Raise _ => 1
  end.

(** ** Python values held by the dictionaries the script builds *)

Inductive pyval : Type :=
| PStr (s : string)
| PInt (z : Z)
| PTimedelta (us : Z)
| PNone.

(** ** Ordered dictionaries *)

Definition dict (V : Type) : Type := list (string * V).

Fixpoint dict_get {V} (k : string) (d : dict V) : option V :=
  match d with
  | [] => None
  | (k', v) :: d' => if String.eqb k' k then Some v else dict_get k d'
  end.

(** [d[k] = v]: an existing key keeps its position, a new one goes last. *)
Fixpoint dict_set {V} (k : string) (v : V) (d : dict V) : dict V :=
  match d with
  | [] => [(k, v)]
  | (k', v') :: d' =>
      if String.eqb k' k then (k', v) :: d' else (k', v') :: dict_set k v d'
  end.

Definition dict_mem {V} (k : string) (d : dict V) : bool :=
  match dict_get k d with
  | Some _ => true
  | None => false
  end.

Definition dict_keys {V} (d : dict V) : list string := map fst d.
Definition dict_values {V} (d : dict V) : list V := map snd d.

(** [d[k]] as an expression. *)
Definition getitem {V} (d : dict V) (k : string) : result V :=
  match dict_get k d with
  | Some v => Ok v
  | None => Raise KeyError
  end.

(** ** Strings *)

Definition dot : ascii := "."%char.

(** [s.split(c)] for a one-character separator. *)
Fixpoint split_on (c : ascii) (s : string) : list string :=
  match s with
  | EmptyString => [EmptyString]
  | String a s' =>
      if Ascii.eqb a c then EmptyString :: split_on c s'
      else match split_on c s' with
           | [] => [String a EmptyString]
           | w :: ws => String a w :: ws
           end
  end.

(** [sub in s] for strings. *)
Definition substring_of (sub s : string) : bool :=
  match index 0 sub s with
  | Some _ => true
  | None => false
  end.

Definition mem_string (x : string) (l : list string) : bool :=
  existsb (String.eqb x) l.

(** [repr] of a list of plain strings, as an f-string prints it. *)
Definition repr_list (l : list string) : string :=
  ("[" ++ String.concat ", " (map (fun s => "'" ++ s ++ "'") l) ++ "]")%string.

(** ** Stable sorting

    [sorted(l, key=...)] is stable and compares keys with [<] only; the
    insertion sort below is its extensional model for keys that [ltb]
    orders. *)

Section Sorting.
Context {K A : Type}.
Variable ltb : K -> K -> bool.
Variable key : A -> K.

Fixpoint insert_by (x : A) (l : list A) : list A :=
  match l with
  | [] => [x]
  | y :: l' =>
      if ltb (key y) (key x) then y :: insert_by x l' else x :: y :: l'
  end.

Fixpoint sort_by (l : list A) : list A :=
  match l with
  | [] => []
  | x :: l' => insert_by x (sort_by l')
  end.
End Sorting.

Fixpoint all_str (l : list pyval) : option (list string) :=
  match l with
  | [] => Some []
  | PStr s :: l' => option_map (cons s) (all_str l')
  | _ :: _ => None
  end.

Fixpoint all_int (l : list pyval) : option (list Z) :=
  match l with
  | [] => Some []
  | PInt z :: l' => option_map (cons z) (all_int l')
  | _ :: _ => None
  end.

(** [sorted(l, key=key)] on keys that are [str], [int] or [None]: the keys
    are computed first; with two or more elements every element takes part
    in a comparison, so mixed or [None] keys raise [TypeError]. *)
Definition py_sorted {A} (key : A -> result pyval) (l : list A)
  : result (list A) :=
  rbind (rmap key l) (fun ks =>
    if (Nat.leb (List.length l) 1) then Ok l
    else match all_str ks, all_int ks with
         | Some ss, _ =>
             Ok (map snd (sort_by String.ltb fst (combine ss l)))
         | None, Some zs =>
             Ok (map snd (sort_by Z.ltb fst (combine zs l)))
         | None, None => Raise TypeError
         end).

(** ** [ipaddress.ip_address]

    The IPv4 branch is modelled in full (four decimal octets of at most
    three digits, no leading zero, each at most 255); the IPv6 branch is the
    environment's [ipv6_int]. *)

Definition digit_value (c : ascii) : option Z :=
  let n := Z.of_nat (nat_of_ascii c) in
  if (48 <=? n) && (n <=? 57) then Some (n - 48) else None.

Fixpoint int_of_digits (acc : Z) (s : string) : option Z :=
  match s with
  | EmptyString => Some acc
  | String c s' =>
      match digit_value c with
      | Some d => int_of_digits (10 * acc + d) s'
      | None => None
      end
  end.

Definition parse_octet (s : string) : option Z :=
  match s with
  | EmptyString => None
  | String c _ =>
      match int_of_digits 0 s with
      | None => None
      | Some n =>
          if Nat.ltb 3 (String.length s) then None
          else if negb (String.eqb s "0") && Ascii.eqb c "0" then None
          else if 255 <? n then None
          else Some n
      end
  end.

Definition ipv4_int (s : string) : option Z :=
  match map parse_octet (split_on dot s) with
  | [Some a; Some b; Some c; Some d] =>
      Some (((a * 256 + b) * 256 + c) * 256 + d)
  | _ => None
  end.

(** ** Floating point: binary64 through [SpecFloat] *)

Definition float : Type := spec_float.

Definition prec : Z := 53.
Definition emax : Z := 1024.

(** A Python [int] read exactly, before any rounding. *)
Definition exact_of_Z (z : Z) : float :=
  match z with
  | Z0 => S754_zero false
  | Zpos p => S754_finite false p 0
  | Zneg p => S754_finite true p 0
  end.

(** [float(z)]. *)
Definition float_of_Z (z : Z) : float := binary_normalize prec emax z 0 false.

(** [a / b] on integers: the correctly rounded quotient. *)
Definition py_truediv (a b : Z) : result float :=
  if b =? 0 then Raise ZeroDivisionError
  else match SFdiv prec emax (exact_of_Z a) (exact_of_Z b) with
       | S754_infinity _ => Raise OverflowError
       | q => Ok q
       end.

(** [x * n] for a float [x] and an integer [n]. *)
Definition py_mul_int (x : float) (n : Z) : float :=
  SFmul prec emax x (float_of_Z n).

(** [round(x)] with one argument: to the nearest integer, ties to even. *)
Definition py_round (x : float) : result Z :=
  match x with
  | S754_zero _ => Ok 0
  | S754_infinity _ => Raise OverflowError
  | S754_nan => Raise ValueError
  | S754_finite s m e =>
      let n :=
        match e with
        | Zneg p =>
            let d := Z.pow_pos 2 p in
            let q := Zpos m / d in
            let r := Zpos m mod d in
            match 2 * r ?= d with
            | Lt => q
            | Gt => q + 1
            | Eq => if Z.even q then q else q + 1
            end
        | _ => Zpos m * 2 ^ e
        end in
      Ok (if s then - n else n)
  end.

(** ** [datetime.timedelta] *)

Definition us_per_second : Z := 1000000.
Definition us_per_day : Z := 86400 * us_per_second.

Definition td_days (td : Z) : Z := td / us_per_day.
Definition td_seconds (td : Z) : Z := (td mod us_per_day) / us_per_second.
Definition td_microseconds (td : Z) : Z := td mod us_per_second.

Fixpoint zeros (n : nat) : string :=
  match n with
  | O => EmptyString
  | S n' => String "0" (zeros n')
  end.

Definition zero_pad (width : nat) (s : string) : string :=
  (zeros (width - String.length s) ++ s)%string.

(** ["%d" % n]. *)
Definition str_of_Z (n : Z) : string := NilZero.string_of_int (Z.to_int n).

(** The clock part ["%d:%02d:%02d" % (hh, mm, ss)], preceded by the days
    when there are any. *)
Definition str_timedelta_seconds (td : Z) : string :=
  let mm := td_seconds td / 60 in
  let ss := td_seconds td mod 60 in
  let hh := mm / 60 in
  let mm := mm mod 60 in
  let s := (str_of_Z hh ++ ":" ++ zero_pad 2 (str_of_Z mm) ++ ":"
            ++ zero_pad 2 (str_of_Z ss))%string in
  if td_days td =? 0 then s
  else (str_of_Z (td_days td) ++ " day"
        ++ (if Z.eqb (Z.abs (td_days td)) 1 then "" else "s")
        ++ ", " ++ s)%string.

(** [str(td)]. *)
Definition str_timedelta (td : Z) : string :=
  let s := str_timedelta_seconds td in
  if td_microseconds td =? 0 then s
  else (s ++ "." ++ zero_pad 6 (str_of_Z (td_microseconds td)))%string.

(** ** The journal's records *)

(** Modelled from the spec: the record type of the journal parser (class
    [Lease] of [isc_dhcp_leases]), which the script imports and only reads.
    The fields are the attributes the script reads; their types are those
    of the data model: [start] is a datetime, [end_] ([end]) a datetime or
    [None], [ethernet] a string or [None], [sets] and [data] are string
    dictionaries. *)

Record Lease : Type := {
  ip : string;
  ethernet : option string;
  hostname : string;
  binding_state : string;
  start : Z;
  end_ : option Z;
  sets : dict string;
  data : dict string
}.

(** ** The environment of a run *)

(** What the script consumes and does not define, taken as parameters: the
    parsed journal ([IscDhcpLeases(path).get()]), the effective
    configuration (the methods of [vyos.config.Config]), the service probe
    ([vyos.util.is_systemd_service_running]), the wall clock (the k-th
    reading of [datetime.utcnow()]), the platform's local time
    ([datetime.fromtimestamp], given the microseconds the float of seconds
    stands for, and [strftime]) and the IPv6 branch of [ip_address]. *)

Record Env : Type := {
  read_leases : string -> result (list Lease);
  exists_effective : string -> bool;
  list_effective_nodes : string -> list string;
  return_effective_value : string -> option string;
  is_systemd_service_running : string -> bool;
  utcnow_at : nat -> Z;
  fromtimestamp : Z -> result Z;
  strftime : Z -> string -> result string;
  ipv6_int : string -> option Z
}.

(** ** What a run writes and reads *)

(** An element of the lists the script renders: a row for [tabulate], a
    dictionary for [dumps]. *)
Inductive pyobj : Type :=
| Row (cells : list pyval)
| Dict (d : dict pyval).

(** What is printed: a line of text, [tabulate(rows, headers)],
    [dumps(v, indent=4)] and the usage text of [argparse]. *)
Inductive output : Type :=
| Text (s : string)
| Table (headers : list string) (rows : list pyobj)
| JsonDump (v : list pyobj)
| Help.

Record world : Type := {
  stdout : list output;
  journal_reads : list string;
  clock_reads : nat
}.

Definition world0 : world :=
  {| stdout := []; journal_reads := []; clock_reads := O |}.

Definition M (A : Type) : Type := world -> result A * world.

Definition ret {A} (a : A) : M A := fun w => (Ok a, w).

Definition bind {A B} (c : M A) (k : A -> M B) : M B :=
  fun w =>
    match c w with
    | (Ok a, w') => k a w'
    | (Raise e, w') => (Raise e, w')
    end.

Definition raise {A} (e : exn) : M A := fun w => (Raise e, w).

Definition lift {A} (r : result A) : M A := fun w => (r, w).

Notation "x <- c ;; k" := (bind c (fun x => k))
  (at level 61, c at next level, right associativity).
Notation "c ;;; k" := (bind c (fun _ => k))
  (at level 61, right associativity).

Definition print (o : output) : M unit :=
  fun w => (Ok tt, {| stdout := stdout w ++ [o];
                      journal_reads := journal_reads w;
                      clock_reads := clock_reads w |}).

Definition exit {A} (code : Z) : M A := raise (SystemExit code).

(** [IscDhcpLeases(path).get()]. *)
Definition IscDhcpLeases_get (env : Env) (path : string) : M (list Lease) :=
  fun w => (read_leases env path,
            {| stdout := stdout w;
               journal_reads := journal_reads w ++ [path];
               clock_reads := clock_reads w |}).

(** [datetime.utcnow()]. *)
Definition utcnow (env : Env) : M Z :=
  fun w => (Ok (utcnow_at env (clock_reads w)),
            {| stdout := stdout w;
               journal_reads := journal_reads w;
               clock_reads := S (clock_reads w) |}).

Fixpoint mapM {A B} (f : A -> M B) (l : list A) : M (list B) :=
  match l with
  | [] => ret []
  | x :: l' => y <- f x ;; ys <- mapM f l' ;; ret (y :: ys)
  end.

(** [ip_address(a)]: a string is tried as IPv4, then as IPv6; an integer is
    an address when it is in range; anything else is refused. *)
Definition ip_address (env : Env) (a : pyval) : result Z :=
  match a with
  | PStr s =>
      match ipv4_int s with
      | Some n => Ok n
      | None =>
          match ipv6_int env s with
          | Some n => Ok n
          | None => Raise ValueError
          end
      end
  | PInt z => if (0 <=? z) && (z <? 2 ^ 128) then Ok z else Raise ValueError
  | _ => Raise ValueError
  end.

(** ** The script *)

Definition lease_file : string := "/config/dhcpd.leases".
Definition pool_key : string := "shared-networkname".

Definition lease_display_fields : dict string :=
  [("ip", "IP address"); ("hardware_address", "Hardware address");
   ("state", "State"); ("start", "Lease start"); ("end", "Lease expiration");
   ("remaining", "Remaining"); ("pool", "Pool"); ("hostname", "Hostname")].

Definition lease_valid_states : list string :=
  ["all"; "active"; "free"; "expired"; "released"; "abandoned"; "reset";
   "backup"].

Definition in_pool (lease : Lease) (pool : string) : bool :=
  match dict_get pool_key (sets lease) with
  | Some v => String.eqb v pool
  | None => false
  end.

(** [datetime(1970,1,1)]. *)
Definition epoch : Z := 0.

(** [utc_to_local(utc_dt)]; subtracting the epoch from [None] is a
    [TypeError]. *)
Definition utc_to_local (env : Env) (utc_dt : option Z) : result Z :=
  match utc_dt with
  | Some t => fromtimestamp env (t - epoch)
  | None => Raise TypeError
  end.

Definition time_format : string := "%Y/%m/%d %H:%M:%S".

(** [a - b] for [a] a datetime or [None] and [b] a datetime. *)
Definition datetime_sub (a : option Z) (b : Z) : result Z :=
  match a with
  | Some t => Ok (t - b)
  | None => Raise TypeError
  end.

Definition get_lease_data (env : Env) (lease : Lease) : M (dict pyval) :=
  let lease_data := data lease in
  let data : dict pyval := [] in
  let data :=
    match rbind (utc_to_local env (Some (start lease)))
                (fun t => strftime env t time_format) with
    | Ok s => dict_set "start" (PStr s) data
    | Raise _ => dict_set "start" (PStr "") data
    end in
  let data :=
    match rbind (utc_to_local env (end_ lease))
                (fun t => strftime env t time_format) with
    | Ok s => dict_set "end" (PStr s) data
    | Raise _ => dict_set "end" (PStr "") data
    end in
  now <- utcnow env ;;
  let data :=
    match datetime_sub (end_ lease) now with
    | Ok td =>
        let data := dict_set "remaining" (PTimedelta td) data in
        if td_days td >=? 0 then
          dict_set "remaining"
            (PStr (hd EmptyString (split_on dot (str_timedelta td)))) data
        else dict_set "remaining" (PStr "") data
    | Raise _ => dict_set "remaining" (PStr "") data
    end in
  let data :=
    fold_left
      (fun data prop =>
         match dict_get prop (lease_data) with
         | Some v => dict_set prop (PStr v) data
         | None => dict_set prop (PStr "") data
         end)
      ["tstp"; "tsfp"; "atsfp"; "cltt"] data in
  let data :=
    dict_set "hardware_address"
      (match ethernet lease with Some m => PStr m | None => PNone end) data in
  let data := dict_set "hostname" (PStr (hostname lease)) data in
  let data := dict_set "state" (PStr (binding_state lease)) data in
  let data := dict_set "ip" (PStr (ip lease)) data in
  let data :=
    match getitem (sets lease) pool_key with
    | Ok v => dict_set "pool" (PStr v) data
    | Raise _ => dict_set "pool" (PStr "") data
    end in
  ret data.

(** The [state] argument: the list of tokens of the command line, or the
    string ['active'] the statistics pass. *)
Inductive state_arg : Type :=
| StateList (tokens : list string)
| StateStr (s : string).

(** [x in state]: membership in a list, containment in a string. *)
Definition py_in (x : string) (state : state_arg) : bool :=
  match state with
  | StateList tokens => mem_string x tokens
  | StateStr s => substring_of x s
  end.

(** Lines 108-110: filter leases by state. *)
Definition filter_by_state (state : state_arg) (leases : list Lease)
  : list Lease :=
  if negb (py_in "all" state)
  then filter (fun x => py_in (binding_state x) state) leases
  else leases.

(** ["service dhcp-server shared-network-name {0}".format(pool)]. *)
Definition pool_path (pool : string) : string :=
  ("service dhcp-server shared-network-name " ++ pool)%string.

(** ["Pool {0} does not exist.".format(pool)], printed. *)
Definition no_such_pool (pool : string) : output :=
  Text ("Pool " ++ pool ++ " does not exist.")%string.

(** Lines 112-118: filter leases by pool name. *)
Definition filter_by_pool (config : Env) (pool : option string)
  (leases : list Lease) : M (list Lease) :=
  match pool with
  | Some pool =>
      if exists_effective config (pool_path pool)
      then ret (filter (fun x => in_pool x pool) leases)
      else print (no_such_pool pool) ;;; exit 0
  | None => ret leases
  end.

(** Lines 122-129, with the [values()] of line 132: sort by start time,
    then dedupe by converting to a dictionary keyed by IP. *)
Definition dedupe (leases : list Lease) : list Lease :=
  let leases := sort_by Z.ltb start leases in
  let leases_dict :=
    fold_left (fun d lease => dict_set (ip lease) lease d) leases [] in
  dict_values leases_dict.

(** Lines 104-129: the records [get_leases] converts. *)
Definition select_leases (config : Env) (state : state_arg)
  (pool : option string) : M (list Lease) :=
  leases <- IscDhcpLeases_get config lease_file ;;
  let leases := filter_by_state state leases in
  leases <- filter_by_pool config pool leases ;;
  ret (dedupe leases).

(** Lines 134-138: apply output/display sort. *)
Definition display_sort (config : Env) (sort : string)
  (leases : list (dict pyval)) : result (list (dict pyval)) :=
  if String.eqb sort "ip" then
    py_sorted (fun lease =>
                 rbind (getitem lease "ip") (fun a =>
                 rbind (ip_address config a) (fun n => Ok (PInt n))))
              leases
  else
    py_sorted (fun lease => getitem lease sort) leases.

(** The parameter [leases] is overwritten by the journal read on the
    function's first line. *)
Definition get_leases {A : Type} (config : Env) (leases : A)
  (state : state_arg) (pool : option string) (sort : string)
  : M (list (dict pyval)) :=
  leases <- select_leases config state pool ;;
  leases <- mapM (get_lease_data config) leases ;;
  lift (display_sort config sort leases).

Definition show_leases (leases : list (dict pyval)) : M unit :=
  lease_list <-
    lift (rmap (fun l =>
                  rbind (rmap (fun k => getitem l k)
                              (dict_keys lease_display_fields))
                        (fun lease_list_params => Ok (Row lease_list_params)))
               leases) ;;
  print (Table (dict_values lease_display_fields) lease_list).

Fixpoint rfold {A B} (f : A -> B -> result A) (l : list B) (a : A)
  : result A :=
  match l with
  | [] => Ok a
  | x :: l' => rbind (f a x) (rfold f l')
  end.

Definition opt_pyval (o : option string) : pyval :=
  match o with
  | Some s => PStr s
  | None => PNone
  end.

Definition get_pool_size (config : Env) (pool : string) : result Z :=
  let size := 0 in
  let subnets :=
    list_effective_nodes config
      ("service dhcp-server shared-network-name " ++ pool ++ " subnet")%string
  in
  rfold (fun size s =>
    let ranges :=
      list_effective_nodes config
        ("service dhcp-server shared-network-name " ++ pool ++ " subnet "
         ++ s ++ " range")%string in
    rfold (fun size r =>
      let start :=
        return_effective_value config
          ("service dhcp-server shared-network-name " ++ pool ++ " subnet "
           ++ s ++ " range " ++ r ++ " start")%string in
      let stop :=
        return_effective_value config
          ("service dhcp-server shared-network-name " ++ pool ++ " subnet "
           ++ s ++ " range " ++ r ++ " stop")%string in
      rbind (ip_address config (opt_pyval stop)) (fun hi =>
      rbind (ip_address config (opt_pyval start)) (fun lo =>
      Ok (size + (hi - lo + 1))))) ranges size) subnets size.

Definition show_pool_stats (stats : list pyobj) : M unit :=
  print (Table ["Pool"; "Size"; "Leases"; "Available"; "Usage"] stats).

(** Line 241. *)
Definition use_percentage (leases size : Z) : result Z :=
  if negb (size =? 0)
  then rbind (py_truediv leases size) (fun q => py_round (py_mul_int q 100))
  else Ok 0.

(** Lines 243-248. *)
Definition pool_stats (json : bool) (p : string) (size leases pct : Z)
  : pyobj :=
  if json then
    Dict [("pool", PStr p); ("size", PInt size); ("leases", PInt leases);
          ("available", PInt (size - leases)); ("percentage", PInt pct)]
  else
    Row [PStr p; PInt size; PInt leases; PInt (size - leases);
         PStr (str_of_Z pct ++ "%")%string].

(** The command line, as [argparse] hands it over. *)
Record Args : Type := {
  arg_leases : bool;
  arg_statistics : bool;
  arg_allowed : option string;
  arg_pool : option string;
  arg_sort : string;
  arg_state : list string;
  arg_json : bool
}.

Definition subset (a b : list string) : bool :=
  forallb (fun x => mem_string x b) a.

(** [set(a) < set(b)]: a proper subset. *)
Definition set_lt (a b : list string) : bool :=
  subset a b && negb (subset b a).

Definition truthy (o : option string) : bool :=
  match o with
  | Some (String _ _) => true
  | _ => false
  end.

Definition when (b : bool) (c : M unit) : M unit :=
  if b then c else ret tt.

(** Lines 236-249: the body of the statistics loop. *)
Definition pool_statistics (conf : Env) (json : bool) (p : string)
  : M pyobj :=
  size <- lift (get_pool_size conf p) ;;
  leases <- get_leases conf lease_file (StateStr "active") (Some p) "ip" ;;
  let leases := Z.of_nat (List.length leases) in
  use_percentage <- lift (use_percentage leases size) ;;
  ret (pool_stats json p size leases use_percentage).

Definition main (conf : Env) (args : Args) : M unit :=
  let allowed_is v :=
    match arg_allowed args with
    | Some a => String.eqb a v
    | None => false
    end in
  (if allowed_is "sort"
   then print (Text (String.concat " " (dict_keys lease_display_fields))) ;;;
        exit 0
   else if allowed_is "state"
   then print (Text (String.concat " " lease_valid_states)) ;;; exit 0
   else when (truthy (arg_allowed args)) (print Help ;;; exit 1)) ;;;
  when (negb (mem_string (arg_sort args) (dict_keys lease_display_fields)))
       (print (Text ("Invalid sort key, choose from: "
                     ++ repr_list (dict_keys lease_display_fields))%string)
        ;;; exit 0) ;;;
  when (negb (set_lt (arg_state args) lease_valid_states))
       (print (Text ("Invalid lease state, choose from: "
                     ++ repr_list lease_valid_states)%string) ;;; exit 0) ;;;
  when (negb (exists_effective conf "service dhcp-server"))
       (print (Text "DHCP service is not configured.") ;;; exit 0) ;;;
  when (negb (is_systemd_service_running conf "isc-dhcp-server.service"))
       (print (Text "WARNING: DHCP server is configured but not started. Data may be stale.")) ;;;
  if arg_leases args then
    leases <- get_leases conf lease_file (StateList (arg_state args))
                (arg_pool args) (arg_sort args) ;;
    if arg_json args then print (JsonDump (map Dict leases))
    else show_leases leases
  else if arg_statistics args then
    let pools :=
      if truthy (arg_pool args)
      then match arg_pool args with Some p => [p] | None => [] end
      else list_effective_nodes conf
             "service dhcp-server shared-network-name" in
    stats <- mapM (pool_statistics conf (arg_json args)) pools ;;
    if arg_json args then print (JsonDump stats)
    else show_pool_stats stats
  else
    print Help ;;; exit 1.

(** ** Auxiliary notions of the statements *)

(** The last element of [l] that satisfies [P]. *)
Definition find_last {A} (P : A -> bool) (l : list A) : option A :=
  find P (rev l).

(** ** The text of a duration, truncated to whole seconds *)

Fixpoint dotless (s : string) : bool :=
  match s with
  | EmptyString => true
  | String c s' => negb (Ascii.eqb c dot) && dotless s'
  end.

(** The duration [td], at least zero, without its fraction of a second. *)
Definition whole_seconds (td : Z) : Z := us_per_second * (td / us_per_second).

(** ** Sample data for the concrete runs *)

Definition sample_lease (a : string) (t : Z) (bs : string) (e : option Z)
  : Lease :=
  {| ip := a; ethernet := Some "00:53:00:00:00:01"; hostname := "host";
     binding_state := bs; start := t; end_ := e;
     sets := [(pool_key, "LAN")]; data := [] |}.

(** ** The fields the enricher derives, each from its own source *)

(** A timestamp in local time, or the empty string when it cannot be
    converted. *)
Definition local_text (env : Env) (t : option Z) : string :=
  match rbind (utc_to_local env t) (fun t => strftime env t time_format) with
  | Ok s => s
  | Raise _ => EmptyString
  end.

(** The time left from [now] to the end of the lease, in whole seconds; the
    empty string for no end or an end before [now]. *)
Definition remaining_text (e : option Z) (now : Z) : string :=
  match e with
  | Some e => if now <=? e then str_timedelta (whole_seconds (e - now))
              else EmptyString
  | None => EmptyString
  end.

Definition pool_text (lease : Lease) : string :=
  match dict_get pool_key (sets lease) with
  | Some v => v
  | None => EmptyString
  end.

Definition passthrough (lease : Lease) (prop : string) : string :=
  match dict_get prop (data lease) with
  | Some v => v
  | None => EmptyString
  end.

(** The world after one more reading of the clock. *)
Definition tick (w : world) : world :=
  {| stdout := stdout w;
     journal_reads := journal_reads w;
     clock_reads := S (clock_reads w) |}.

(** The dictionary of a lease enriched at time [now]. *)
Definition enriched (env : Env) (now : Z) (lease : Lease) : dict pyval :=
  [("start", PStr (local_text env (Some (start lease))));
   ("end", PStr (local_text env (end_ lease)));
   ("remaining", PStr (remaining_text (end_ lease) now));
   ("tstp", PStr (passthrough lease "tstp"));
   ("tsfp", PStr (passthrough lease "tsfp"));
   ("atsfp", PStr (passthrough lease "atsfp"));
   ("cltt", PStr (passthrough lease "cltt"));
   ("hardware_address", opt_pyval (ethernet lease));
   ("hostname", PStr (hostname lease));
   ("state", PStr (binding_state lease));
   ("ip", PStr (ip lease));
   ("pool", PStr (pool_text lease))].

(** The leases enriched one after the other, the clock read once for each,
    from its [k]-th reading on. *)
Fixpoint enrich_from (env : Env) (k : nat) (l : list Lease)
  : list (dict pyval) :=
  match l with
  | [] => []
  | x :: l' => enriched env (utcnow_at env k) x :: enrich_from env (S k) l'
  end.

(** The world after [n] more readings of the clock. *)
Definition ticks (n : nat) (w : world) : world :=
  {| stdout := stdout w;
     journal_reads := journal_reads w;
     clock_reads := (n + clock_reads w)%nat |}.

(** The world after the journal at [path] was read. *)
Definition journal_read (path : string) (w : world) : world :=
  {| stdout := stdout w;
     journal_reads := journal_reads w ++ [path];
     clock_reads := clock_reads w |}.

(** The world after [o] was printed. *)
Definition printed (o : output) (w : world) : world :=
  {| stdout := stdout w ++ [o];
     journal_reads := journal_reads w;
     clock_reads := clock_reads w |}.

(** A lease passes the pool filter. *)
Definition passes_pool (pool : option string) (x : Lease) : bool :=
  match pool with
  | Some p => in_pool x p
  | None => true
  end.

(** A lease passes the state filter. *)
Definition passes_state (state : state_arg) (x : Lease) : bool :=
  py_in "all" state || py_in (binding_state x) state.

(** The pool filter has a pool to filter by: none was asked for, or the
    configuration has the one asked for. *)
Definition pool_known (config : Env) (pool : option string) : bool :=
  match pool with
  | Some p => exists_effective config (pool_path p)
  | None => true
  end.

(** Two records of one address: an active one, and a later free one. *)
Definition lease_old : Lease := sample_lease "192.0.2.7" 10 "active" None.
Definition lease_new : Lease := sample_lease "192.0.2.7" 20 "free" None.

(** An environment around a given journal: the service is configured and
    running, the one pool is [LAN], with two ranges in one subnet; the clock
    stands at 1000 s, local time is one hour ahead of UTC and is printed as
    a number of seconds. *)
Definition sample_env (journal : list Lease) : Env :=
  {| read_leases := fun _ => Ok journal;
     exists_effective := fun p =>
       String.eqb p "service dhcp-server" || String.eqb p (pool_path "LAN");
     list_effective_nodes := fun p =>
       if String.eqb p "service dhcp-server shared-network-name"
       then ["LAN"]
       else if String.eqb p (pool_path "LAN" ++ " subnet")
       then ["192.0.2.0/24"]
       else if String.eqb p (pool_path "LAN" ++ " subnet 192.0.2.0/24 range")
       then ["0"; "1"]
       else [];
     return_effective_value := fun p =>
       if String.eqb p
            (pool_path "LAN" ++ " subnet 192.0.2.0/24 range 0 start")
       then Some "192.0.2.10"
       else if String.eqb p
                 (pool_path "LAN" ++ " subnet 192.0.2.0/24 range 0 stop")
       then Some "192.0.2.20"
       else if String.eqb p
                 (pool_path "LAN" ++ " subnet 192.0.2.0/24 range 1 start")
       then Some "192.0.2.30"
       else if String.eqb p
                 (pool_path "LAN" ++ " subnet 192.0.2.0/24 range 1 stop")
       then Some "192.0.2.30"
       else None;
     is_systemd_service_running := fun _ => true;
     utcnow_at := fun _ => 1000 * us_per_second;
     fromtimestamp := fun t => Ok (t + 3600 * us_per_second);
     strftime := fun t _ => Ok (str_of_Z (t / us_per_second));
     ipv6_int := fun _ => None |}.

(** The order of the specification's data flow, for comparison with
    [select_leases]: the resolver on the whole journal first, the state and
    pool filters on the resolved records after it. *)
Definition resolve_then_filter (state : state_arg) (pool : option string)
  (journal : list Lease) : list Lease :=
  filter (passes_pool pool) (filter (passes_state state) (dedupe journal)).

(** The records [get_leases] converts are those of [resolve_then_filter]. *)
Definition resolves_before_filtering (config : Env) (state : state_arg)
  (pool : option string) : Prop :=
  forall w journal out w',
    read_leases config lease_file = Ok journal ->
    select_leases config state pool w = (Ok out, w') ->
    out = resolve_then_filter state pool journal.

(** ** The orders of the display sort *)

(** The natural order of two keys: strings by code points, integers by
    value; other keys are unordered. *)
Definition py_le (a b : pyval) : Prop :=
  match a, b with
  | PStr s, PStr t => String.leb s t = true
  | PInt x, PInt y => x <= y
  | _, _ => False
  end.

(** The integer value of a lease's address: [int(ip_address(lease['ip']))]. *)
Definition address_key (config : Env) (lease : dict pyval) : result Z :=
  rbind (getitem lease "ip") (ip_address config).

(** [a] is not after [b] by numeric address. *)
Definition by_address (config : Env) (a b : dict pyval) : Prop :=
  exists x y, address_key config a = Ok x /\ address_key config b = Ok y /\
              x <= y.

(** [a] is not after [b] by the natural order of the field [sort]. *)
Definition by_field (sort : string) (a b : dict pyval) : Prop :=
  exists x y, getitem a sort = Ok x /\ getitem b sort = Ok y /\ py_le x y.

(** A dictionary with an address and nothing else. *)
Definition only_ip (a : string) : dict pyval := [("ip", PStr a)].

(** ** The ranges of a pool *)

(** The bounds [(start, stop)] of the range [r] of the subnet [s] of
    [pool], as the configuration returns them. *)
Definition range_bounds (config : Env) (pool s r : string) : pyval * pyval :=
  (opt_pyval
     (return_effective_value config
        ("service dhcp-server shared-network-name " ++ pool ++ " subnet "
         ++ s ++ " range " ++ r ++ " start")%string),
   opt_pyval
     (return_effective_value config
        ("service dhcp-server shared-network-name " ++ pool ++ " subnet "
         ++ s ++ " range " ++ r ++ " stop")%string)).

(** The bounds of every range of the subnet [s] of [pool]. *)
Definition subnet_ranges (config : Env) (pool s : string)
  : list (pyval * pyval) :=
  map (range_bounds config pool s)
      (list_effective_nodes config
         ("service dhcp-server shared-network-name " ++ pool ++ " subnet "
          ++ s ++ " range")%string).

(** The bounds of every range of every subnet of [pool], in the order of
    the enumeration. *)
Definition pool_ranges (config : Env) (pool : string)
  : list (pyval * pyval) :=
  flat_map (subnet_ranges config pool)
    (list_effective_nodes config
       ("service dhcp-server shared-network-name " ++ pool
        ++ " subnet")%string).

(** The number of addresses of an inclusive range: stop - start + 1 on the
    integer values of its bounds. *)
Definition range_size (config : Env) (b : pyval * pyval) : result Z :=
  rbind (ip_address config (snd b)) (fun hi =>
  rbind (ip_address config (fst b)) (fun lo => Ok (hi - lo + 1))).

Definition sum_Z (l : list Z) : Z := fold_right Z.add 0 l.

(** The command line [show_dhcp.py --leases] with every state there is. *)
Definition every_state_args (leases statistics json : bool)
  (pool : option string) : Args :=
  {| arg_leases := leases; arg_statistics := statistics;
     arg_allowed := None; arg_pool := pool; arg_sort := "ip";
     arg_state := lease_valid_states; arg_json := json |}.

(** For comparison with [get_leases] on a pool the configuration does not
    have: the query returns to its caller, with the empty sequence. *)
Definition returns_empty_result (config : Env) (state : state_arg)
  (pool sort : string) (w : world) : Prop :=
  exists w',
    get_leases config lease_file state (Some pool) sort w = (Ok [], w').

(** ** Notions of the further properties *)

(** The records of the journal that pass the state filter and the pool
    filter. *)
Definition passing (state : state_arg) (pool : option string)
  (journal : list Lease) : list Lease :=
  filter (passes_pool pool) (filter (passes_state state) journal).

(** The cells [show_leases] collects for one lease: the value of every
    display field, in the order of [lease_display_fields]. *)
Definition display_row (d : dict pyval) : pyobj :=
  Row (map (fun k => match dict_get k d with
                     | Some v => v
                     | None => PNone
                     end)
           (dict_keys lease_display_fields)).

(** The keys of the dictionary [get_lease_data] builds, in the order in
    which it sets them. *)
Definition lease_data_keys : list string :=
  ["start"; "end"; "remaining"; "tstp"; "tsfp"; "atsfp"; "cltt";
   "hardware_address"; "hostname"; "state"; "ip"; "pool"].

(** The binding states the lease daemon writes. *)
Definition binding_states : list string :=
  ["free"; "active"; "expired"; "released"; "abandoned"; "reset"; "backup"].

(** The pools the statistics run over (lines 229-233). *)
Definition statistics_pools (conf : Env) (args : Args) : list string :=
  if truthy (arg_pool args)
  then match arg_pool args with Some p => [p] | None => [] end
  else list_effective_nodes conf "service dhcp-server shared-network-name".

(** The command line passes the checks of lines 191-212: no [--allowed]
    request, a known sort key, states that form a proper subset of the
    valid ones, and a configured service. *)
Definition passes_checks (conf : Env) (args : Args) : bool :=
  negb (truthy (arg_allowed args))
  && mem_string (arg_sort args) (dict_keys lease_display_fields)
  && set_lt (arg_state args) lease_valid_states
  && exists_effective conf "service dhcp-server".

(** An environment whose only pool has one range, written backwards. *)
Definition reversed_range_env : Env :=
  {| read_leases := fun _ => Ok [];
     exists_effective := fun _ => true;
     list_effective_nodes := fun p =>
       if String.eqb p (pool_path "LAN" ++ " subnet")
       then ["192.0.2.0/24"]
       else if String.eqb p (pool_path "LAN" ++ " subnet 192.0.2.0/24 range")
       then ["0"]
       else [];
     return_effective_value := fun p =>
       if String.eqb p
            (pool_path "LAN" ++ " subnet 192.0.2.0/24 range 0 start")
       then Some "192.0.2.20"
       else if String.eqb p
                 (pool_path "LAN" ++ " subnet 192.0.2.0/24 range 0 stop")
       then Some "192.0.2.10"
       else None;
     is_systemd_service_running := fun _ => true;
     utcnow_at := fun _ => 0;
     fromtimestamp := fun t => Ok t;
     strftime := fun t _ => Ok (str_of_Z t);
     ipv6_int := fun _ => None |}.

(** An environment whose journal cannot be read. *)
Definition unreadable_env : Env :=
  {| read_leases := fun _ => Raise OSError;
     exists_effective := fun _ => true;
     list_effective_nodes := fun _ => [];
     return_effective_value := fun _ => None;
     is_systemd_service_running := fun _ => true;
     utcnow_at := fun _ => 0;
     fromtimestamp := fun t => Ok t;
     strftime := fun t _ => Ok (str_of_Z t);
     ipv6_int := fun _ => None |}.

(** Lines 214-259 of the script: what runs once the checks are passed. *)
Definition after_checks (conf : Env) (args : Args) : M unit :=
  when (negb (is_systemd_service_running conf "isc-dhcp-server.service"))
       (print (Text "WARNING: DHCP server is configured but not started. Data may be stale.")) ;;;
  if arg_leases args then
    leases <- get_leases conf lease_file (StateList (arg_state args))
                (arg_pool args) (arg_sort args) ;;
    if arg_json args then print (JsonDump (map Dict leases))
    else show_leases leases
  else if arg_statistics args then
    stats <- mapM (pool_statistics conf (arg_json args))
               (statistics_pools conf args) ;;
    if arg_json args then print (JsonDump stats)
    else show_pool_stats stats
  else
    print Help ;;; exit 1.

(** The world when the checks are passed: the warning of a stopped service
    is printed, if there is one to print. *)
Definition warned (conf : Env) (w : world) : world :=
  if is_systemd_service_running conf "isc-dhcp-server.service" then w
  else printed (Text "WARNING: DHCP server is configured but not started. Data may be stale.") w.

(** What the statistics print for the rows [stats]. *)
Definition statistics_output (json : bool) (stats : list pyobj) : output :=
  if json then JsonDump stats
  else Table ["Pool"; "Size"; "Leases"; "Available"; "Usage"] stats.

(** The command line [show_dhcp.py --statistics]. *)
Definition statistics_args : Args :=
  {| arg_leases := false; arg_statistics := true; arg_allowed := None;
     arg_pool := None; arg_sort := "ip"; arg_state := ["active"];
     arg_json := false |}.

(** The command line [show_dhcp.py --leases --sort address]. *)
Definition unknown_sort_args : Args :=
  {| arg_leases := true; arg_statistics := false; arg_allowed := None;
     arg_pool := None; arg_sort := "address"; arg_state := ["active"];
     arg_json := false |}.

(** What a lease run prints for the leases [out]. *)
Definition leases_output (json : bool) (out : list (dict pyval)) : output :=
  if json then JsonDump (map Dict out)
  else Table ["IP address"; "Hardware address"; "State"; "Lease start";
              "Lease expiration"; "Remaining"; "Pool"; "Hostname"]
             (map display_row out).

(** The command line [show_dhcp.py --leases --state all]. *)
Definition all_leases_args : Args :=
  {| arg_leases := true; arg_statistics := false; arg_allowed := None;
     arg_pool := None; arg_sort := "ip"; arg_state := ["all"];
     arg_json := false |}.

(** ** The use of a pool, in exact arithmetic *)

(** For comparison with [use_percentage]: the percentage the specification
    writes, [round(activeLeaseCount / capacity * 100)], read in exact
    arithmetic: the integer nearest to the rational 100 * active / capacity,
    an exact half going to the even neighbour (it is the upper neighbour at
    57.5 under either of the usual conventions for a half). *)
Definition exact_percentage (active capacity : Z) : Z :=
  let n := 100 * active in
  let q := n / capacity in
  let r := n mod capacity in
  match 2 * Z.abs r ?= Z.abs capacity with
  | Lt => q
  | Gt => q + 1
  | Eq => if Z.even q then q else q + 1
  end.

(** The use the script computes is the exactly rounded percentage. *)
Definition use_is_exact_percentage (active capacity : Z) : Prop :=
  use_percentage active capacity = Ok (exact_percentage active capacity).

(** A journal with two active leases and a free one, all of the pool LAN. *)
Definition two_active_journal : list Lease :=
  [sample_lease "192.0.2.10" 1 "active" None;
   sample_lease "192.0.2.11" 2 "active" None;
   sample_lease "192.0.2.13" 4 "free" None].

(** * Properties *)

(** ** The result monads *)

Lemma rbind_Ok {A B} (r : result A) (k : A -> result B) (b : B) :
  rbind r k = Ok b -> exists a, r = Ok a /\ k a = Ok b.
Proof.
  destruct r as [a|e]; simpl; intros H; [eauto | discriminate].
Qed.

Lemma rmap_length {A B} (f : A -> result B) (l : list A) (ys : list B) :
  rmap f l = Ok ys -> List.length ys = List.length l.
Proof.
  revert ys; induction l as [|x l IH]; simpl; intros ys H.
  - now inversion H.
  - apply rbind_Ok in H as (y & _ & H).
    apply rbind_Ok in H as (ys' & Hys & H).
    inversion H; subst; simpl; f_equal; auto.
Qed.

(** ** Stable insertion sort on integer keys *)

Section SortFacts.
Context {A : Type}.
Variable key : A -> Z.

Let le_key (a b : A) : Prop := key a <= key b.

Lemma insert_by_perm (x : A) (l : list A) :
  Permutation (insert_by Z.ltb key x l) (x :: l).
Proof.
  induction l as [|y l IH]; simpl; [reflexivity|].
  destruct (key y <? key x).
  - rewrite IH. apply perm_swap.
  - reflexivity.
Qed.

Lemma sort_by_perm (l : list A) : Permutation (sort_by Z.ltb key l) l.
Proof.
  induction l as [|x l IH]; simpl; [reflexivity|].
  rewrite insert_by_perm. now constructor.
Qed.

Lemma insert_by_sorted (x : A) (l : list A) :
  StronglySorted le_key l ->
  StronglySorted le_key (insert_by Z.ltb key x l).
Proof.
  induction 1 as [|y l Hs IH Hy]; simpl.
  - repeat constructor.
  - destruct (key y <? key x) eqn:E.
    + constructor; [exact IH|].
      rewrite Forall_forall; intros z Hz.
      apply (Permutation_in _ (insert_by_perm x l)) in Hz.
      destruct Hz as [<-|Hz].
      * unfold le_key. apply Z.ltb_lt in E. lia.
      * rewrite Forall_forall in Hy. now apply Hy.
    + apply Z.ltb_ge in E.
      constructor; [now constructor|].
      constructor; [exact E|].
      rewrite Forall_forall in Hy |- *.
      intros z Hz. specialize (Hy z Hz). unfold le_key in *. lia.
Qed.

Lemma sort_by_sorted (l : list A) :
  StronglySorted le_key (sort_by Z.ltb key l).
Proof.
  induction l as [|x l IH]; simpl; [constructor|].
  now apply insert_by_sorted.
Qed.

(** Stability: records with one and the same key keep their order. *)
Lemma insert_by_stable (k : Z) (x : A) (l : list A) :
  filter (fun y => key y =? k) (insert_by Z.ltb key x l)
  = filter (fun y => key y =? k) (x :: l).
Proof.
  induction l as [|y l IH]; [reflexivity|].
  cbn [insert_by].
  destruct (key y <? key x) eqn:E; [|reflexivity].
  apply Z.ltb_lt in E.
  cbn [filter] in *. rewrite IH.
  destruct (key x =? k) eqn:Ex, (key y =? k) eqn:Ey; try reflexivity.
  apply Z.eqb_eq in Ex, Ey. lia.
Qed.

Lemma sort_by_stable (k : Z) (l : list A) :
  filter (fun y => key y =? k) (sort_by Z.ltb key l)
  = filter (fun y => key y =? k) l.
Proof.
  induction l as [|x l IH]; [reflexivity|].
  cbn [sort_by]. rewrite insert_by_stable.
  cbn [filter]. now rewrite IH.
Qed.
End SortFacts.

(** ** The last element of a list with a property *)

Lemma find_last_app {A} (P : A -> bool) (l1 l2 : list A) :
  find_last P (l1 ++ l2)
  = match find_last P l2 with
    | Some x => Some x
    | None => find_last P l1
    end.
Proof.
  unfold find_last. rewrite rev_app_distr.
  induction (rev l2) as [|y r IH]; simpl; [reflexivity|].
  now destruct (P y).
Qed.

Lemma find_last_snoc {A} (P : A -> bool) (l : list A) (x : A) :
  find_last P (l ++ [x]) = if P x then Some x else find_last P l.
Proof.
  rewrite find_last_app. unfold find_last at 1. simpl. now destruct (P x).
Qed.

Lemma find_last_split {A} (P : A -> bool) (l : list A) (r : A) :
  find_last P l = Some r ->
  exists pre post,
    l = pre ++ r :: post /\ P r = true /\ forall x, In x post -> P x = false.
Proof.
  induction l as [|y l IH] using rev_ind; [discriminate|].
  rewrite find_last_snoc. destruct (P y) eqn:E.
  - intros [= <-]. exists l, []. repeat split; auto. intros x [].
  - intros (pre & post & -> & Hr & Hpost)%IH.
    exists pre, (post ++ [y]). rewrite <- app_assoc. repeat split; auto.
    intros x [Hx|[<-|[]]]%in_app_or; auto.
Qed.

Lemma find_filter {A} (P : A -> bool) (l : list A) :
  find P l = hd_error (filter P l).
Proof.
  induction l as [|x l IH]; simpl; [reflexivity|]. now destruct (P x).
Qed.

Lemma filter_rev {A} (P : A -> bool) (l : list A) :
  filter P (rev l) = rev (filter P l).
Proof.
  induction l as [|x l IH]; simpl; [reflexivity|].
  rewrite filter_app, IH. simpl.
  destruct (P x); simpl; [reflexivity | apply app_nil_r].
Qed.

Lemma find_last_filter {A} (P : A -> bool) (l : list A) :
  find_last P l = hd_error (rev (filter P l)).
Proof.
  unfold find_last. now rewrite find_filter, filter_rev.
Qed.

Lemma filter_filter {A} (P Q : A -> bool) (l : list A) :
  filter P (filter Q l) = filter (fun x => P x && Q x) l.
Proof.
  induction l as [|x l IH]; simpl; [reflexivity|].
  destruct (Q x); simpl; rewrite ?IH, ?andb_true_r, ?andb_false_r;
    reflexivity.
Qed.

(** ** Ordered dictionaries *)

Section DictFacts.
Context {V : Type}.

Lemma dict_get_set_same (k : string) (v : V) (d : dict V) :
  dict_get k (dict_set k v d) = Some v.
Proof.
  induction d as [|[k' v'] d IH]; simpl.
  - now rewrite String.eqb_refl.
  - destruct (String.eqb k' k) eqn:E; simpl; rewrite E; auto.
Qed.

Lemma dict_get_set_other (k k' : string) (v : V) (d : dict V) :
  k' <> k -> dict_get k' (dict_set k v d) = dict_get k' d.
Proof.
  intros Hne. induction d as [|[k0 v0] d IH]; simpl.
  - destruct (String.eqb_spec k k'); congruence.
  - destruct (String.eqb_spec k0 k) as [->|Hk]; simpl.
    + destruct (String.eqb_spec k k'); congruence.
    + now rewrite IH.
Qed.

Lemma dict_get_In (k : string) (v : V) (d : dict V) :
  dict_get k d = Some v -> In (k, v) d.
Proof.
  induction d as [|[k' v'] d IH]; simpl; [discriminate|].
  destruct (String.eqb_spec k' k) as [->|Hk].
  - intros [= ->]. now left.
  - intros H. right. auto.
Qed.

Lemma dict_get_keys (k : string) (d : dict V) :
  In k (dict_keys d) <-> dict_get k d <> None.
Proof.
  induction d as [|[k' v'] d IH]; simpl; [tauto|].
  destruct (String.eqb_spec k' k) as [->|Hk].
  - split; [discriminate | auto].
  - rewrite <- IH. tauto.
Qed.

Lemma In_dict_get (k : string) (v : V) (d : dict V) :
  NoDup (dict_keys d) -> In (k, v) d -> dict_get k d = Some v.
Proof.
  induction d as [|[k' v'] d IH]; simpl; [tauto|].
  intros Hnd [[= -> ->]|Hin].
  - now rewrite String.eqb_refl.
  - inversion Hnd as [|? ? Hk' Hnd']; subst.
    destruct (String.eqb_spec k' k) as [->|Hk]; [|auto].
    exfalso. apply Hk'. unfold dict_keys.
    change k with (fst (k, v)). now apply in_map.
Qed.

Lemma dict_keys_set (k : string) (v : V) (d : dict V) :
  dict_keys (dict_set k v d)
  = if dict_mem k d then dict_keys d else dict_keys d ++ [k].
Proof.
  unfold dict_mem.
  induction d as [|[k' v'] d IH]; simpl; [reflexivity|].
  destruct (String.eqb k' k) eqn:E; simpl; [reflexivity|].
  rewrite IH. now destruct (dict_get k d).
Qed.

Lemma dict_set_NoDup (k : string) (v : V) (d : dict V) :
  NoDup (dict_keys d) -> NoDup (dict_keys (dict_set k v d)).
Proof.
  intros Hnd. rewrite dict_keys_set. unfold dict_mem.
  destruct (dict_get k d) eqn:E; [exact Hnd|].
  apply NoDup_rev in Hnd. rewrite <- (rev_involutive (_ ++ _)).
  apply NoDup_rev. rewrite rev_app_distr. simpl.
  constructor; [|exact Hnd].
  rewrite <- in_rev, dict_get_keys. congruence.
Qed.

Variable key : V -> string.

Let step (d : dict V) (v : V) : dict V := dict_set (key v) v d.

Lemma fold_dict_set_NoDup (l : list V) (d : dict V) :
  NoDup (dict_keys d) -> NoDup (dict_keys (fold_left step l d)).
Proof.
  revert d; induction l as [|x l IH]; simpl; intros d Hd; [exact Hd|].
  apply IH. now apply dict_set_NoDup.
Qed.

(** After the fold a key holds the last value written under it. *)
Lemma fold_dict_set_get (k : string) (l : list V) (d : dict V) :
  dict_get k (fold_left step l d)
  = match find_last (fun v => String.eqb (key v) k) l with
    | Some v => Some v
    | None => dict_get k d
    end.
Proof.
  revert d; induction l as [|x l IH]; intros d; [reflexivity|].
  cbn [fold_left]. rewrite IH.
  change (x :: l) with ([x] ++ l). rewrite find_last_app.
  destruct (find_last _ l); [reflexivity|].
  unfold find_last, step; simpl.
  destruct (String.eqb_spec (key x) k) as [<-|Hk].
  - apply dict_get_set_same.
  - apply dict_get_set_other. congruence.
Qed.
End DictFacts.

Lemma find_last_none {A} (P : A -> bool) (l : list A) :
  find_last P l = None <-> forall x, In x l -> P x = false.
Proof.
  unfold find_last. split.
  - intros H x Hx. apply (find_none _ _ H). now apply in_rev in Hx.
  - intros H. destruct (find P (rev l)) eqn:E; [|reflexivity].
    apply find_some in E as [Hin HP]. apply in_rev in Hin.
    rewrite (H _ Hin) in HP. discriminate.
Qed.

(** What [dedupe] keeps: the entry of key [a] is the last record of address
    [a] in the order of the sort by start. *)
Lemma dedupe_entries (leases : list Lease) (r : Lease) :
  In r (dedupe leases) <->
  find_last (fun x => String.eqb (ip x) (ip r))
            (sort_by Z.ltb start leases) = Some r.
Proof.
  unfold dedupe, dict_values. cbv zeta.
  set (sorted := sort_by Z.ltb start leases).
  set (d := fold_left (fun d lease => dict_set (ip lease) lease d) sorted []).
  assert (Hnd : NoDup (dict_keys d))
    by (apply (fold_dict_set_NoDup ip); constructor).
  assert (Hget : forall k, dict_get k d
                 = find_last (fun x => String.eqb (ip x) k) sorted).
  { intros k. unfold d. rewrite (fold_dict_set_get ip). simpl.
    now destruct (find_last _ sorted). }
  split.
  - intros ((k, v) & <- & Hin)%in_map_iff. simpl.
    pose proof (In_dict_get _ _ _ Hnd Hin) as Hk. rewrite Hget in Hk.
    destruct (find_last_split _ _ _ Hk) as (_ & _ & _ & Hv & _).
    apply String.eqb_eq in Hv. now rewrite Hv.
  - intros H. rewrite <- Hget in H. apply dict_get_In in H.
    change r with (snd (ip r, r)). now apply in_map.
Qed.

Lemma StronglySorted_app_before {A} (R : A -> A -> Prop)
  (pre post : list A) (r : A) :
  StronglySorted R (pre ++ r :: post) -> forall x, In x pre -> R x r.
Proof.
  induction pre as [|y pre IH]; simpl; intros Hs x Hx; [contradiction|].
  inversion Hs as [|? ? Hs' Hy]; subst.
  destruct Hx as [<-|Hx]; [|now apply IH].
  rewrite Forall_forall in Hy. apply Hy, in_elt.
Qed.

Lemma dedupe_addresses (leases : list Lease) :
  NoDup (map ip (dedupe leases)) /\
  forall a, In a (map ip (dedupe leases)) <-> In a (map ip leases).
Proof.
  assert (Hent := dedupe_entries leases).
  unfold dedupe, dict_values in *. cbv zeta in *.
  set (sorted := sort_by Z.ltb start leases) in *.
  set (d := fold_left (fun d lease => dict_set (ip lease) lease d) sorted [])
    in *.
  assert (Hnd : NoDup (dict_keys d))
    by (apply (fold_dict_set_NoDup ip); constructor).
  assert (Hkeys : map ip (map snd d) = dict_keys d).
  { unfold dict_keys. rewrite map_map. apply map_ext_in.
    intros [k v] Hin. simpl.
    assert (Hv : In v (map snd d))
      by (change v with (snd (k, v)); now apply in_map).
    apply Hent in Hv. fold sorted in Hv.
    assert (Hk : dict_get k d = Some v) by now apply In_dict_get.
    unfold d in Hk. rewrite (fold_dict_set_get ip) in Hk. simpl in Hk.
    destruct (find_last (fun v0 => String.eqb (ip v0) k) sorted) eqn:E;
      [|discriminate].
    injection Hk as ->.
    apply find_last_split in E as (_ & _ & _ & E & _).
    now apply String.eqb_eq in E. }
  rewrite Hkeys. split; [exact Hnd|].
  intros a. rewrite dict_get_keys. unfold d.
  rewrite (fold_dict_set_get ip). simpl.
  destruct (find_last (fun v => String.eqb (ip v) a) sorted) eqn:E.
  - split; [intros _|discriminate].
    apply find_last_split in E as (pre & post & Hs & E & _).
    apply String.eqb_eq in E. subst a.
    apply in_map, (Permutation_in _ (sort_by_perm start leases)).
    fold sorted. rewrite Hs. apply in_elt.
  - split; [congruence|]. intros (x & <- & Hx)%in_map_iff. exfalso.
    rewrite find_last_none in E.
    apply (Permutation_in _ (Permutation_sym (sort_by_perm start leases)))
      in Hx.
    specialize (E x Hx). simpl in E. rewrite String.eqb_refl in E.
    discriminate.
Qed.

(** The record [dedupe] keeps for an address comes from the input and no
    input record of that address starts later. *)
Lemma dedupe_latest (leases : list Lease) (r : Lease) :
  In r (dedupe leases) ->
  In r leases /\
  forall r', In r' leases -> ip r' = ip r -> start r' <= start r.
Proof.
  intros Hr. apply dedupe_entries in Hr.
  pose proof (sort_by_perm start leases) as Hperm.
  pose proof (sort_by_sorted start leases) as Hsorted.
  destruct (find_last_split _ _ _ Hr) as (pre & post & Hs & Hip & Hpost).
  split.
  - apply (Permutation_in _ Hperm). rewrite Hs. apply in_elt.
  - intros r' Hr' Heq.
    apply (Permutation_in _ (Permutation_sym Hperm)) in Hr'.
    rewrite Hs in Hr', Hsorted.
    apply in_app_or in Hr' as [Hpre|[<-|Hpo]].
    + now apply (StronglySorted_app_before _ _ _ _ Hsorted).
    + lia.
    + apply Hpost in Hpo. rewrite Heq, String.eqb_refl in Hpo.
      discriminate.
Qed.

(** C1: the dedup step of [get_leases] keeps exactly one record per
    distinct address (no address twice, and exactly the addresses of the
    input); the record kept for an address has the maximum start among the
    input records of that address; it is the last record of that address
    after the stable ascending sort by start, which is the last one, in
    input order, among the records of that address with that maximum
    start. *)
Theorem dedupe_keeps_latest_per_address (leases : list Lease) :
  NoDup (map ip (dedupe leases)) /\
  (forall a, In a (map ip (dedupe leases)) <-> In a (map ip leases)) /\
  (forall r, In r (dedupe leases) ->
     In r leases /\
     (forall r', In r' leases -> ip r' = ip r -> start r' <= start r) /\
     find_last (fun x => String.eqb (ip x) (ip r))
               (sort_by Z.ltb start leases) = Some r /\
     find_last (fun x => String.eqb (ip x) (ip r) && (start x =? start r))
               leases = Some r).
Proof.
  destruct (dedupe_addresses leases) as [Hnd Haddr].
  split; [exact Hnd|]. split; [exact Haddr|].
  intros r Hr. destruct (dedupe_latest _ _ Hr) as [Hin Hmax].
  apply dedupe_entries in Hr.
  destruct (find_last_split _ _ _ Hr) as (pre & post & Hs & Hip & Hpost).
  split; [exact Hin|]. split; [exact Hmax|]. split; [exact Hr|].
  transitivity
    (find_last (fun x => String.eqb (ip x) (ip r) && (start x =? start r))
               (sort_by Z.ltb start leases)).
  - rewrite !find_last_filter, <- !filter_filter.
    now rewrite sort_by_stable.
  - rewrite Hs. change (r :: post) with ([r] ++ post).
    rewrite !find_last_app.
    assert (Hnone : find_last
              (fun x => String.eqb (ip x) (ip r) && (start x =? start r))
              post = None).
    { apply find_last_none. intros x Hx. now rewrite (Hpost x Hx). }
    rewrite Hnone. unfold find_last. simpl.
    now rewrite String.eqb_refl, Z.eqb_refl.
Qed.

Lemma dedupe_keeps_latest_per_address_witness :
  In lease_new (dedupe [lease_new; lease_old]) /\
  start lease_old <= start lease_new.
Proof.
  assert (Hin : In lease_new (dedupe [lease_new; lease_old]))
    by (vm_compute; auto).
  split; [exact Hin|].
  destruct (dedupe_keeps_latest_per_address [lease_new; lease_old])
    as (_ & _ & H).
  destruct (H lease_new Hin) as (_ & Hmax & _).
  apply Hmax; [vm_compute; auto | reflexivity].
Defined.

(** ** The state filter *)

Lemma mem_string_In (x : string) (l : list string) :
  mem_string x l = true <-> In x l.
Proof.
  unfold mem_string. rewrite existsb_exists. split.
  - intros (y & Hy & E). apply String.eqb_eq in E. now subst.
  - intros H. exists x. split; [exact H | apply String.eqb_refl].
Qed.

(** C7: with the sentinel [all] among the requested states the state
    filter passes every lease (the sequence, and so its count, is
    unchanged); without it a lease passes exactly when its binding state is
    one of the requested states. *)
Theorem filter_by_state_all_or_member (tokens : list string)
  (leases : list Lease) :
  (In "all" tokens ->
     filter_by_state (StateList tokens) leases = leases /\
     List.length (filter_by_state (StateList tokens) leases)
     = List.length leases) /\
  (~ In "all" tokens ->
     forall x, In x (filter_by_state (StateList tokens) leases)
               <-> In x leases /\ In (binding_state x) tokens).
Proof.
  unfold filter_by_state. cbn [py_in]. split.
  - intros H. apply mem_string_In in H. rewrite H. simpl. auto.
  - intros H. destruct (mem_string "all" tokens) eqn:E.
    + apply mem_string_In in E. contradiction.
    + simpl. intros x. rewrite filter_In, mem_string_In. reflexivity.
Qed.

Lemma filter_by_state_all_or_member_witness :
  filter_by_state (StateList ["free"; "all"]) [lease_old; lease_new]
  = [lease_old; lease_new] /\
  (In lease_new
      (filter_by_state (StateList ["free"; "backup"]) [lease_old; lease_new])
   <-> In lease_new [lease_old; lease_new] /\
       In (binding_state lease_new) ["free"; "backup"]).
Proof.
  split.
  - apply (proj1 (filter_by_state_all_or_member ["free"; "all"]
                    [lease_old; lease_new])).
    simpl; auto.
  - apply (proj2 (filter_by_state_all_or_member ["free"; "backup"]
                    [lease_old; lease_new])).
    simpl. intros [H|[H|[]]]; discriminate H.
Defined.

(** ** Strings without a dot, and [split('.')] *)

Lemma dotless_app (s t : string) :
  dotless (s ++ t) = dotless s && dotless t.
Proof.
  induction s as [|c s IH]; simpl; [reflexivity|].
  now rewrite IH, andb_assoc.
Qed.

Lemma dotless_uint (d : Decimal.uint) :
  dotless (NilEmpty.string_of_uint d) = true.
Proof. induction d; simpl; auto. Qed.

Lemma dotless_str_of_Z (n : Z) : dotless (str_of_Z n) = true.
Proof.
  unfold str_of_Z, NilZero.string_of_int.
  destruct (Z.to_int n) as [d|d]; simpl;
    destruct d; simpl; auto using dotless_uint.
Qed.

Lemma dotless_zero_pad (w : nat) (s : string) :
  dotless (zero_pad w s) = dotless s.
Proof.
  unfold zero_pad. rewrite dotless_app.
  induction (w - String.length s)%nat; simpl; auto.
Qed.

Lemma dotless_str_timedelta_seconds (td : Z) :
  dotless (str_timedelta_seconds td) = true.
Proof.
  unfold str_timedelta_seconds. cbv zeta.
  destruct (td_days td =? 0);
    repeat (rewrite ?dotless_app, ?dotless_zero_pad, ?dotless_str_of_Z;
            simpl); [reflexivity|].
  now destruct (Z.abs (td_days td) =? 1).
Qed.

Lemma split_on_dotless (s : string) :
  dotless s = true -> split_on dot s = [s].
Proof.
  induction s as [|c s IH]; simpl; [reflexivity|].
  intros [Hc Hs]%andb_prop. apply negb_true_iff in Hc.
  now rewrite Hc, (IH Hs).
Qed.

Lemma split_on_dot_app (s t : string) :
  dotless s = true ->
  split_on dot (s ++ String dot t) = s :: split_on dot t.
Proof.
  induction s as [|c s IH]; simpl.
  - reflexivity.
  - intros [Hc Hs]%andb_prop. apply negb_true_iff in Hc.
    now rewrite Hc, (IH Hs).
Qed.

(** [str(td).split('.')[0]] is the clock text of [td]. *)
Lemma str_timedelta_before_dot (td : Z) :
  hd EmptyString (split_on dot (str_timedelta td))
  = str_timedelta_seconds td.
Proof.
  unfold str_timedelta. cbv zeta.
  destruct (td_microseconds td =? 0).
  - now rewrite split_on_dotless by apply dotless_str_timedelta_seconds.
  - change ("." ++ ?x)%string with (String dot x).
    now rewrite split_on_dot_app by apply dotless_str_timedelta_seconds.
Qed.

(** The clock text of [td] is the text of [td] cut to whole seconds. *)
Lemma str_timedelta_seconds_truncates (td : Z) :
  str_timedelta_seconds td = str_timedelta (whole_seconds td).
Proof.
  assert (Hdays : td_days (whole_seconds td) = td_days td).
  { unfold td_days, whole_seconds, us_per_day.
    rewrite (Z.mul_comm 86400), <- !Z.div_div by (unfold us_per_second; lia).
    now rewrite (Z.mul_comm us_per_second), Z.div_mul
      by (unfold us_per_second; lia). }
  assert (Hsec : td_seconds (whole_seconds td) = td_seconds td).
  { unfold td_seconds, whole_seconds, us_per_day.
    rewrite (Z.mul_comm 86400).
    rewrite !Z.rem_mul_r by (unfold us_per_second; lia).
    rewrite (Z.mul_comm us_per_second (td / _)), Z.mod_mul, Z.div_mul
      by (unfold us_per_second; lia).
    rewrite Z.add_0_l.
    rewrite !(Z.mul_comm us_per_second), !Z.div_add, !Z.div_mul
      by (unfold us_per_second; lia).
    rewrite (Z.div_small (td mod us_per_second))
      by (apply Z.mod_pos_bound; unfold us_per_second; lia).
    reflexivity. }
  assert (Hus : td_microseconds (whole_seconds td) = 0).
  { unfold td_microseconds, whole_seconds.
    rewrite Z.mul_comm. apply Z.mod_mul. unfold us_per_second; lia. }
  unfold str_timedelta. rewrite Hus. simpl.
  unfold str_timedelta_seconds. now rewrite Hdays, Hsec.
Qed.

(** ** The enricher *)

Lemma td_days_nonneg (td : Z) : (td_days td >=? 0) = (0 <=? td).
Proof.
  unfold td_days, us_per_day, us_per_second.
  rewrite Z.geb_leb.
  destruct (0 <=? td) eqn:E.
  - apply Z.leb_le in E. apply Z.leb_le. apply Z.div_pos; lia.
  - apply Z.leb_gt in E. apply Z.leb_gt.
    apply Z.div_lt_upper_bound; lia.
Qed.

(** One run of the enricher: it returns, having read the clock once, and
    the dictionary it returns is [enriched] at that reading. *)
Lemma get_lease_data_run (env : Env) (lease : Lease) (w : world) :
  get_lease_data env lease w
  = (Ok (enriched env (utcnow_at env (clock_reads w)) lease), tick w).
Proof.
  unfold get_lease_data, enriched, bind, utcnow, ret, tick.
  cbv zeta. f_equal. f_equal.
  unfold local_text, remaining_text, pool_text, passthrough, getitem,
    datetime_sub.
  set (now := utcnow_at env (clock_reads w)).
  cbn [fold_left].
  destruct (rbind (utc_to_local env (Some (start lease))) _);
  destruct (rbind (utc_to_local env (end_ lease)) _);
  destruct (dict_get "tstp" (data lease));
  destruct (dict_get "tsfp" (data lease));
  destruct (dict_get "atsfp" (data lease));
  destruct (dict_get "cltt" (data lease));
  destruct (dict_get pool_key (sets lease));
  destruct (ethernet lease);
  (destruct (end_ lease) as [t_end|]; [|reflexivity]);
  rewrite td_days_nonneg;
  replace (0 <=? t_end - now) with (now <=? t_end)
    by (destruct (now <=? t_end) eqn:E1, (0 <=? t_end - now) eqn:E2; auto;
        rewrite ?Z.leb_le, ?Z.leb_gt in *; lia);
  (destruct (now <=? t_end); [|reflexivity]);
  rewrite str_timedelta_before_dot, str_timedelta_seconds_truncates;
  reflexivity.
Qed.

Lemma mapM_get_lease_data (env : Env) (l : list Lease) (w : world) :
  mapM (get_lease_data env) l w
  = (Ok (enrich_from env (clock_reads w) l), ticks (List.length l) w).
Proof.
  revert w; induction l as [|x l IH]; intros w.
  - destruct w; reflexivity.
  - cbn [mapM]. unfold bind at 1. rewrite get_lease_data_run.
    unfold bind at 1. rewrite IH. unfold ret, ticks, tick; simpl.
    now rewrite Nat.add_succ_r.
Qed.

Lemma enrich_from_length (env : Env) (k : nat) (l : list Lease) :
  List.length (enrich_from env k l) = List.length l.
Proof. revert k; induction l; simpl; auto. Qed.

Lemma map_ip_enrich_from (env : Env) (k : nat) (l : list Lease) :
  map (dict_get "ip") (enrich_from env k l)
  = map (fun x => Some (PStr (ip x))) l.
Proof. revert k; induction l as [|x l IH]; simpl; intros; f_equal; auto. Qed.

(** ** The selection of the records: journal, filters, resolution *)

Lemma filter_by_state_passes (state : state_arg) (leases : list Lease) :
  filter_by_state state leases = filter (passes_state state) leases.
Proof.
  unfold filter_by_state, passes_state.
  destruct (py_in "all" state); simpl; [|reflexivity].
  induction leases as [|x l IH]; simpl; [reflexivity|]. now rewrite <- IH.
Qed.

Lemma filter_passes_pool_None (leases : list Lease) :
  filter (passes_pool None) leases = leases.
Proof.
  induction leases as [|x l IH]; simpl; [reflexivity|]. now rewrite IH.
Qed.

Lemma select_leases_run (config : Env) (state : state_arg)
  (pool : option string) (w : world) :
  select_leases config state pool w
  = match read_leases config lease_file with
    | Raise e => (Raise e, journal_read lease_file w)
    | Ok journal =>
        if pool_known config pool
        then (Ok (dedupe (filter (passes_pool pool)
                            (filter (passes_state state) journal))),
              journal_read lease_file w)
        else (Raise (SystemExit 0),
              printed (no_such_pool (match pool with
                                     | Some p => p
                                     | None => EmptyString
                                     end))
                      (journal_read lease_file w))
    end.
Proof.
  unfold select_leases, bind, IscDhcpLeases_get. fold (journal_read lease_file w).
  destruct (read_leases config lease_file) as [journal|e]; [|reflexivity].
  rewrite filter_by_state_passes.
  unfold filter_by_pool, pool_known.
  destruct pool as [p|].
  - destruct (exists_effective config (pool_path p)); reflexivity.
  - now rewrite filter_passes_pool_None.
Qed.

Lemma get_leases_run {A} (config : Env) (a : A) (state : state_arg)
  (pool : option string) (sort : string) (w : world) :
  get_leases config a state pool sort w
  = match select_leases config state pool w with
    | (Ok leases, w') =>
        (display_sort config sort (enrich_from config (clock_reads w') leases),
         ticks (List.length leases) w')
    | (Raise e, w') => (Raise e, w')
    end.
Proof.
  unfold get_leases, bind at 1.
  destruct (select_leases config state pool w) as [[leases|e] w'];
    [|reflexivity].
  unfold bind. now rewrite mapM_get_lease_data.
Qed.

(** A lease query on a readable journal, for no pool or a configured one:
    the passing records are resolved, enriched and sorted for display. *)
Lemma get_leases_selected {A} (config : Env) (a : A) (state : state_arg)
  (pool : option string) (sort : string) (w : world)
  (journal : list Lease) :
  read_leases config lease_file = Ok journal ->
  pool_known config pool = true ->
  get_leases config a state pool sort w
  = (display_sort config sort
       (enrich_from config (clock_reads w)
          (dedupe (passing state pool journal))),
     ticks (List.length (dedupe (passing state pool journal)))
           (journal_read lease_file w)).
Proof.
  intros Hread Hpool.
  now rewrite get_leases_run, select_leases_run, Hread, Hpool.
Qed.

Lemma get_leases_Ok_inv {A} (config : Env) (a : A) (state : state_arg)
  (pool : option string) (sort : string) (w w' : world)
  (out : list (dict pyval)) :
  get_leases config a state pool sort w = (Ok out, w') ->
  exists journal,
    read_leases config lease_file = Ok journal /\
    pool_known config pool = true /\
    display_sort config sort
      (enrich_from config (clock_reads w)
         (dedupe (passing state pool journal))) = Ok out /\
    w' = ticks (List.length (dedupe (passing state pool journal)))
               (journal_read lease_file w).
Proof.
  rewrite get_leases_run, select_leases_run. unfold passing.
  destruct (read_leases config lease_file) as [journal|e]; [|discriminate].
  destruct (pool_known config pool); [|discriminate].
  cbn [clock_reads journal_read].
  destruct (display_sort _ _ _) as [out'|e] eqn:E; [|discriminate].
  intros [= <- <-]. exists journal. auto.
Qed.

(** C2, as amended: the state filter and the pool filter run on the parsed
    journal first and the resolver runs on what passes them.  For a readable
    journal and a pool that is absent or configured, the records
    [get_leases] converts are the resolution of the passing records: the
    record chosen for an address is a passing record of that address with
    the greatest start among the passing records of that address, and an
    address is present exactly when one of its records passes. *)
Theorem select_leases_resolves_passing_records (config : Env)
  (state : state_arg) (pool : option string) (w : world)
  (journal : list Lease) :
  read_leases config lease_file = Ok journal ->
  pool_known config pool = true ->
  let passing :=
    filter (fun x => passes_state state x && passes_pool pool x) journal in
  select_leases config state pool w
  = (Ok (dedupe passing), journal_read lease_file w) /\
  (forall a, In a (map ip (dedupe passing)) <->
             exists r, In r journal /\ passes_state state r = true /\
                       passes_pool pool r = true /\ ip r = a) /\
  (forall r, In r (dedupe passing) ->
     In r journal /\ passes_state state r = true /\
     passes_pool pool r = true /\
     forall r', In r' journal -> passes_state state r' = true ->
                passes_pool pool r' = true -> ip r' = ip r ->
                start r' <= start r) /\
  (forall sort,
     get_leases config lease_file state pool sort w
     = (display_sort config sort
          (enrich_from config (clock_reads w) (dedupe passing)),
        ticks (List.length (dedupe passing)) (journal_read lease_file w))).
Proof.
  intros Hread Hpool passing.
  assert (Hpass : forall x, In x passing <->
            In x journal /\ passes_state state x = true /\
            passes_pool pool x = true).
  { intros x. unfold passing. rewrite filter_In, andb_true_iff. tauto. }
  assert (Hsel : select_leases config state pool w
                 = (Ok (dedupe passing), journal_read lease_file w)).
  { rewrite select_leases_run, Hread, Hpool, filter_filter.
    unfold passing. do 3 f_equal. apply filter_ext.
    intros x. apply andb_comm. }
  split; [exact Hsel|]. split; [|split].
  - intros a. rewrite (proj2 (dedupe_addresses passing) a), in_map_iff.
    split; intros (r & H1 & H2).
    + subst a. apply Hpass in H2. exists r. tauto.
    + exists r. destruct H2 as (? & ? & ?). split; [auto|].
      apply Hpass. tauto.
  - intros r Hr. destruct (dedupe_latest _ _ Hr) as [Hin Hmax].
    apply Hpass in Hin as (Hj & Hs & Hp). repeat split; auto.
    intros r' Hj' Hs' Hp' Hip. apply Hmax; [|exact Hip].
    apply Hpass. tauto.
  - intros sort. now rewrite get_leases_run, Hsel.
Qed.

Lemma select_leases_resolves_passing_records_witness :
  select_leases (sample_env [lease_old; lease_new]) (StateList ["active"])
    None world0
  = (Ok [lease_old], journal_read lease_file world0).
Proof.
  exact (proj1 (select_leases_resolves_passing_records
                  (sample_env [lease_old; lease_new]) (StateList ["active"])
                  None world0 [lease_old; lease_new] eq_refl eq_refl)).
Defined.

(** C2, as stated, fails: with an active record of an address followed by a
    later free record of the same address, a query for the active leases
    converts the earlier, active record, where resolving the whole journal
    first and filtering afterwards leaves none. *)
Lemma resolves_before_filtering_counterexample :
  ~ resolves_before_filtering (sample_env [lease_old; lease_new])
      (StateList ["active"]) None.
Proof.
  intros H.
  specialize (H world0 [lease_old; lease_new] [lease_old]
                (journal_read lease_file world0) eq_refl eq_refl).
  vm_compute in H. discriminate H.
Qed.

(** ** The journal argument *)

(** C10: the value passed as [leases] has no influence on the result or on
    the world [get_leases] leaves, and the journal read is always the one at
    the fixed path [lease_file]. *)
Theorem get_leases_ignores_leases_argument {A B : Type} (config : Env)
  (a : A) (b : B) (state : state_arg) (pool : option string)
  (sort : string) (w : world) :
  get_leases config a state pool sort w
  = get_leases config b state pool sort w /\
  journal_reads (snd (get_leases config a state pool sort w))
  = journal_reads w ++ [lease_file].
Proof.
  split; [reflexivity|].
  rewrite get_leases_run, select_leases_run.
  destruct (read_leases config lease_file); [|reflexivity].
  destruct (pool_known config pool); reflexivity.
Qed.

(** ** A pool the configuration does not have *)

Lemma get_leases_no_such_pool {A : Type} (config : Env) (a : A)
  (state : state_arg) (p sort : string) (w : world)
  (journal : list Lease) :
  read_leases config lease_file = Ok journal ->
  exists_effective config (pool_path p) = false ->
  get_leases config a state (Some p) sort w
  = (Raise (SystemExit 0),
     printed (no_such_pool p) (journal_read lease_file w)).
Proof.
  intros Hread Hpool.
  rewrite get_leases_run, select_leases_run, Hread. cbn [pool_known].
  now rewrite Hpool.
Qed.

(** C4, as amended: for every query naming a pool the configuration reports
    as non-existent, [get_leases] returns no sequence to its caller and
    converts no lease (the clock is not read).  The journal is read first
    (line 106): when it can be read, whatever it holds, the notice that
    there is no such pool is printed and the run ends at once through
    [exit(0)], so the exit status is 0, the status of success and not that
    of an error, and nothing else is printed; when it cannot be read, the
    error of the read ends the query before the pool is looked at, and
    nothing is printed. *)
Theorem get_leases_unknown_pool {A : Type} (config : Env) (a : A)
  (state : state_arg) (p sort : string) (w : world) :
  exists_effective config (pool_path p) = false ->
  (forall journal, read_leases config lease_file = Ok journal ->
     get_leases config a state (Some p) sort w
     = (Raise (SystemExit 0),
        printed (no_such_pool p) (journal_read lease_file w)) /\
     exit_status (fst (get_leases config a state (Some p) sort w)) = 0 /\
     stdout (snd (get_leases config a state (Some p) sort w))
     = stdout w ++ [Text ("Pool " ++ p ++ " does not exist.")%string]) /\
  (forall e, read_leases config lease_file = Raise e ->
     get_leases config a state (Some p) sort w
     = (Raise e, journal_read lease_file w) /\
     stdout (snd (get_leases config a state (Some p) sort w)) = stdout w) /\
  (forall out w', get_leases config a state (Some p) sort w <> (Ok out, w')) /\
  clock_reads (snd (get_leases config a state (Some p) sort w))
  = clock_reads w.
Proof.
  intros Hpool.
  rewrite get_leases_run, select_leases_run. cbn [pool_known].
  rewrite Hpool.
  destruct (read_leases config lease_file) as [journal|e];
    (split; [|split; [|split]]).
  - intros _ _. repeat split.
  - intros e He. discriminate He.
  - intros out w' H. discriminate H.
  - reflexivity.
  - intros journal Hj. discriminate Hj.
  - intros e' [= <-]. split; reflexivity.
  - intros out w' H. discriminate H.
  - reflexivity.
Qed.

Lemma get_leases_unknown_pool_witness :
  get_leases (sample_env [lease_old]) tt (StateList ["active"])
    (Some "GUEST") "ip" world0
  = (Raise (SystemExit 0),
     printed (no_such_pool "GUEST") (journal_read lease_file world0)).
Proof.
  exact (proj1 (proj1 (get_leases_unknown_pool (sample_env [lease_old]) tt
                         (StateList ["active"]) "GUEST" "ip" world0
                         eq_refl)
                  [lease_old] eq_refl)).
Defined.

(** C4, as stated, fails: on a pool that is not configured [get_leases]
    does not return the empty sequence, nor any sequence; it leaves through
    [exit(0)]. *)
Lemma returns_empty_result_counterexample :
  ~ returns_empty_result (sample_env [lease_old]) (StateList ["active"])
      "GUEST" "ip" world0.
Proof.
  intros [w' H]. vm_compute in H. discriminate H.
Qed.

(** ** The derived fields *)

(** C6: the enricher's [remaining] is the text of the time from the clock's
    reading to the end of the lease, cut to whole seconds, when the end is
    not before that reading; it is the empty string when the lease has no
    end and when the end lies strictly in the past, so a negative duration
    is never printed. *)
Theorem remaining_is_time_left_or_empty (env : Env) (lease : Lease)
  (w : world) :
  let now := utcnow_at env (clock_reads w) in
  exists d,
    get_lease_data env lease w = (Ok d, tick w) /\
    (forall e, end_ lease = Some e -> now <= e ->
       dict_get "remaining" d
       = Some (PStr (str_timedelta (whole_seconds (e - now)))) /\
       0 <= whole_seconds (e - now) <= e - now /\
       e - now - whole_seconds (e - now) < us_per_second) /\
    (forall e, end_ lease = Some e -> e < now ->
       dict_get "remaining" d = Some (PStr "")) /\
    (end_ lease = None -> dict_get "remaining" d = Some (PStr "")).
Proof.
  intros now. eexists. split; [apply get_lease_data_run|].
  fold now. cbn [enriched dict_get String.eqb Ascii.eqb Bool.eqb].
  unfold remaining_text. split; [|split].
  - intros e He Hle. rewrite He.
    apply Z.leb_le in Hle. rewrite Hle. split; [reflexivity|].
    unfold whole_seconds, us_per_second.
    pose proof (Z.mod_pos_bound (e - now) 1000000 ltac:(lia)).
    pose proof (Z.div_mod (e - now) 1000000 ltac:(lia)).
    assert (0 <= (e - now) / 1000000)
      by (apply Z.div_pos; apply Z.leb_le in Hle; lia).
    lia.
  - intros e He Hlt. rewrite He. apply Z.leb_gt in Hlt. now rewrite Hlt.
  - intros He. now rewrite He.
Qed.

Lemma remaining_is_time_left_or_empty_witness :
  exists d,
    get_lease_data (sample_env [])
      (sample_lease "192.0.2.7" 10 "active"
         (Some (4723 * us_per_second + 250000))) world0
    = (Ok d, tick world0) /\
    dict_get "remaining" d = Some (PStr "1:02:03").
Proof.
  destruct (remaining_is_time_left_or_empty (sample_env [])
              (sample_lease "192.0.2.7" 10 "active"
                 (Some (4723 * us_per_second + 250000))) world0)
    as (d & Hrun & Hleft & _).
  exists d. split; [exact Hrun|].
  destruct (Hleft (4723 * us_per_second + 250000) eq_refl) as [Hd _].
  - vm_compute. discriminate.
  - exact Hd.
Defined.

(** C9: the enricher is total: on every lease and in every world it
    returns a dictionary and raises nothing.  Each derived field is the
    conversion of its own source, or the empty string when that conversion
    fails: [start] of the lease's start, [end] of its end, [remaining] of
    its end and the clock, [pool] of its [sets].  So two leases that agree
    on the source of one field get that field alike, whatever their other
    sources are and whether or not the other conversions fail. *)
Theorem get_lease_data_total_fields_independent (env : Env) (lease : Lease)
  (w : world) :
  exists d,
    get_lease_data env lease w = (Ok d, tick w) /\
    dict_get "start" d = Some (PStr (local_text env (Some (start lease)))) /\
    dict_get "end" d = Some (PStr (local_text env (end_ lease))) /\
    dict_get "remaining" d
    = Some (PStr (remaining_text (end_ lease)
                    (utcnow_at env (clock_reads w)))) /\
    dict_get "pool" d = Some (PStr (pool_text lease)) /\
    (forall t e, utc_to_local env t = Raise e -> local_text env t = "") /\
    (forall t u e, utc_to_local env t = Ok u ->
                   strftime env u time_format = Raise e ->
                   local_text env t = "") /\
    (dict_get pool_key (sets lease) = None -> pool_text lease = "") /\
    (forall lease' w' d',
       get_lease_data env lease' w' = (Ok d', tick w') ->
       (start lease' = start lease ->
        dict_get "start" d' = dict_get "start" d) /\
       (end_ lease' = end_ lease ->
        dict_get "end" d' = dict_get "end" d) /\
       (end_ lease' = end_ lease -> clock_reads w' = clock_reads w ->
        dict_get "remaining" d' = dict_get "remaining" d) /\
       (sets lease' = sets lease ->
        dict_get "pool" d' = dict_get "pool" d)).
Proof.
  eexists. split; [apply get_lease_data_run|].
  cbn [enriched dict_get String.eqb Ascii.eqb Bool.eqb].
  repeat (split; [reflexivity|]).
  split; [|split; [|split]].
  - intros t e H. unfold local_text. now rewrite H.
  - intros t u e Ht Hu. unfold local_text. rewrite Ht. simpl. now rewrite Hu.
  - intros H. unfold pool_text. now rewrite H.
  - intros lease' w' d' Hrun. rewrite get_lease_data_run in Hrun.
    injection Hrun as <-.
    cbn [enriched dict_get String.eqb Ascii.eqb Bool.eqb].
    repeat split.
    + intros ->. reflexivity.
    + intros ->. reflexivity.
    + intros -> ->. reflexivity.
    + unfold pool_text. intros ->. reflexivity.
Qed.

Lemma get_lease_data_total_fields_independent_witness :
  exists d,
    get_lease_data (sample_env []) lease_old world0 = (Ok d, tick world0) /\
    dict_get "start" d = Some (PStr "3600") /\
    dict_get "end" d = Some (PStr "") /\
    dict_get "pool" d = Some (PStr "LAN").
Proof.
  destruct (get_lease_data_total_fields_independent (sample_env [])
              lease_old world0)
    as (d & Hrun & Hstart & Hend & _ & Hpool & _ & _ & _ & Hother).
  destruct (Hother lease_new world0 _ (get_lease_data_run _ _ _))
    as (_ & Hsame & _).
  specialize (Hsame eq_refl).
  exists d. repeat split; assumption.
Defined.

(** ** The display sort *)

Section SortOrder.
Context {K A : Type}.
Variable ltb : K -> K -> bool.
Variable key : A -> K.
Hypothesis ltb_asym : forall a b, ltb a b = true -> ltb b a = false.

Let not_after (a b : A) : Prop := ltb (key b) (key a) = false.

Lemma insert_by_permutation (x : A) (l : list A) :
  Permutation (insert_by ltb key x l) (x :: l).
Proof.
  induction l as [|y l IH]; simpl; [reflexivity|].
  destruct (ltb (key y) (key x)).
  - rewrite IH. apply perm_swap.
  - reflexivity.
Qed.

Lemma sort_by_permutation (l : list A) : Permutation (sort_by ltb key l) l.
Proof.
  induction l as [|x l IH]; simpl; [reflexivity|].
  rewrite insert_by_permutation. now constructor.
Qed.

Lemma insert_by_HdRel (x y : A) (l : list A) :
  not_after y x -> HdRel not_after y l ->
  HdRel not_after y (insert_by ltb key x l).
Proof.
  intros Hyx Hl. destruct l as [|z l]; simpl.
  - now constructor.
  - destruct (ltb (key z) (key x)); constructor; auto.
    now inversion Hl.
Qed.

Lemma insert_by_Sorted (x : A) (l : list A) :
  Sorted not_after l -> Sorted not_after (insert_by ltb key x l).
Proof.
  induction 1 as [|y l Hs IH Hy]; simpl.
  - repeat constructor.
  - destruct (ltb (key y) (key x)) eqn:E.
    + constructor; [exact IH|].
      apply insert_by_HdRel; [|exact Hy].
      unfold not_after. now apply ltb_asym.
    + constructor; [now constructor|]. now constructor.
Qed.

Lemma sort_by_Sorted (l : list A) : Sorted not_after (sort_by ltb key l).
Proof.
  induction l as [|x l IH]; simpl; [constructor|].
  now apply insert_by_Sorted.
Qed.
End SortOrder.

Lemma string_ltb_asym (a b : string) :
  String.ltb a b = true -> String.ltb b a = false.
Proof.
  unfold String.ltb. rewrite (String.compare_antisym b a).
  now destruct (String.compare a b).
Qed.

Lemma string_ltb_leb (a b : string) :
  String.ltb b a = false -> String.leb a b = true.
Proof.
  unfold String.ltb, String.leb. rewrite (String.compare_antisym b a).
  now destruct (String.compare a b).
Qed.

Lemma Z_ltb_asym (a b : Z) : Z.ltb a b = true -> Z.ltb b a = false.
Proof. rewrite Z.ltb_lt, Z.ltb_ge. lia. Qed.

Lemma Sorted_map_snd {K A} (Rp : K * A -> K * A -> Prop)
  (R : A -> A -> Prop) (P : K * A -> Prop) (l : list (K * A)) :
  (forall p q, P p -> P q -> Rp p q -> R (snd p) (snd q)) ->
  Forall P l -> Sorted Rp l -> Sorted R (map snd l).
Proof.
  intros HR HP Hs. induction Hs as [|p l Hs IH Hp]; simpl; [constructor|].
  inversion HP as [|? ? Pp Pl]; subst.
  constructor; [now apply IH|].
  destruct Hp as [|q l' Hpq]; simpl; constructor.
  inversion Pl; subst. now apply HR.
Qed.

Lemma rmap_all_str {A} (key : A -> result pyval) (l : list A)
  (ks : list pyval) (ss : list string) :
  rmap key l = Ok ks -> all_str ks = Some ss ->
  Forall (fun p => key (snd p) = Ok (PStr (fst p))) (combine ss l) /\
  map snd (combine ss l) = l.
Proof.
  revert ks ss; induction l as [|x l IH]; simpl; intros ks ss Hk Hs.
  - destruct ss; simpl; auto.
  - apply rbind_Ok in Hk as (k & Hx & Hk).
    apply rbind_Ok in Hk as (ks' & Hl & Hk). injection Hk as <-.
    simpl in Hs. destruct k as [s| | |]; try discriminate.
    destruct (all_str ks') as [ss'|] eqn:E; [|discriminate].
    injection Hs as <-. destruct (IH _ _ Hl E) as [IH1 IH2].
    simpl. split; [constructor; auto | now f_equal].
Qed.

Lemma rmap_all_int {A} (key : A -> result pyval) (l : list A)
  (ks : list pyval) (zs : list Z) :
  rmap key l = Ok ks -> all_int ks = Some zs ->
  Forall (fun p => key (snd p) = Ok (PInt (fst p))) (combine zs l) /\
  map snd (combine zs l) = l.
Proof.
  revert ks zs; induction l as [|x l IH]; simpl; intros ks zs Hk Hs.
  - destruct zs; simpl; auto.
  - apply rbind_Ok in Hk as (k & Hx & Hk).
    apply rbind_Ok in Hk as (ks' & Hl & Hk). injection Hk as <-.
    simpl in Hs. destruct k as [|z| |]; try discriminate.
    destruct (all_int ks') as [zs'|] eqn:E; [|discriminate].
    injection Hs as <-. destruct (IH _ _ Hl E) as [IH1 IH2].
    simpl. split; [constructor; auto | now f_equal].
Qed.

(** What [sorted] returns is in the natural order of the keys, and is a
    rearrangement of what it was given. *)
Lemma py_sorted_Sorted {A} (key : A -> result pyval) (l out : list A) :
  py_sorted key l = Ok out ->
  Sorted (fun a b => exists x y, key a = Ok x /\ key b = Ok y /\ py_le x y)
         out /\
  Permutation out l.
Proof.
  unfold py_sorted. intros H. apply rbind_Ok in H as (ks & Hks & H).
  destruct (Nat.leb (List.length l) 1) eqn:Hlen.
  - injection H as <-. split; [|reflexivity].
    destruct l as [|x [|y l]]; [constructor | | discriminate].
    repeat constructor.
  - destruct (all_str ks) as [ss|] eqn:Es;
      [|destruct (all_int ks) as [zs|] eqn:Ez; [|discriminate]];
      injection H as <-.
    + destruct (rmap_all_str _ _ _ _ Hks Es) as [Hall Hsnd]. split.
      * apply Sorted_map_snd
          with (Rp := fun p q => String.ltb (fst q) (fst p) = false)
               (P := fun p => key (snd p) = Ok (PStr (fst p))).
        -- intros p q Hp Hq Hpq. exists (PStr (fst p)), (PStr (fst q)).
           repeat split; auto. now apply string_ltb_leb.
        -- rewrite Forall_forall in *. intros p Hp. apply Hall.
           now apply (Permutation_in _ (sort_by_permutation _ _ _)) in Hp.
        -- apply sort_by_Sorted, string_ltb_asym.
      * rewrite <- Hsnd at 2. apply Permutation_map, sort_by_permutation.
    + destruct (rmap_all_int _ _ _ _ Hks Ez) as [Hall Hsnd]. split.
      * apply Sorted_map_snd
          with (Rp := fun p q => Z.ltb (fst q) (fst p) = false)
               (P := fun p => key (snd p) = Ok (PInt (fst p))).
        -- intros p q Hp Hq Hpq. exists (PInt (fst p)), (PInt (fst q)).
           repeat split; auto. simpl. now apply Z.ltb_ge.
        -- rewrite Forall_forall in *. intros p Hp. apply Hall.
           now apply (Permutation_in _ (sort_by_permutation _ _ _)) in Hp.
        -- apply sort_by_Sorted, Z_ltb_asym.
      * rewrite <- Hsnd at 2. apply Permutation_map, sort_by_permutation.
Qed.

Lemma Sorted_weaken {A} (R1 R2 : A -> A -> Prop) (l : list A) :
  (forall a b, R1 a b -> R2 a b) -> Sorted R1 l -> Sorted R2 l.
Proof.
  intros H. induction 1 as [|x l Hs IH Hx]; constructor; auto.
  destruct Hx; constructor; auto.
Qed.

Lemma rmap_Ok_map {A B} (f : A -> result B) (g : A -> B) (l : list A) :
  (forall x, In x l -> f x = Ok (g x)) -> rmap f l = Ok (map g l).
Proof.
  induction l as [|x l IH]; simpl; intros H; [reflexivity|].
  rewrite (H x) by auto. simpl. rewrite IH by auto. reflexivity.
Qed.

Lemma all_int_map (g : list Z) : all_int (map PInt g) = Some g.
Proof. induction g as [|z g IH]; simpl; [|rewrite IH]; reflexivity. Qed.

Lemma all_str_map (g : list string) : all_str (map PStr g) = Some g.
Proof. induction g as [|z g IH]; simpl; [|rewrite IH]; reflexivity. Qed.

(** [sorted] returns when every key is an integer, and when every key is a
    string. *)
Lemma py_sorted_total {A} (key : A -> result pyval) (l : list A) :
  (exists g, forall x, In x l -> key x = Ok (PInt (g x))) \/
  (exists g, forall x, In x l -> key x = Ok (PStr (g x))) ->
  exists out, py_sorted key l = Ok out.
Proof.
  unfold py_sorted. intros [[g Hg]|[g Hg]].
  - rewrite (rmap_Ok_map key (fun x => PInt (g x)) l Hg). simpl.
    destruct (Nat.leb (List.length l) 1); [eauto|].
    rewrite <- (map_map g PInt), all_int_map.
    destruct (all_str _); eauto.
  - rewrite (rmap_Ok_map key (fun x => PStr (g x)) l Hg). simpl.
    destruct (Nat.leb (List.length l) 1); [eauto|].
    rewrite <- (map_map g PStr), all_str_map. eauto.
Qed.

Lemma display_sort_order (config : Env) (sort : string)
  (leases out : list (dict pyval)) :
  display_sort config sort leases = Ok out ->
  (sort = "ip" -> Sorted (by_address config) out) /\
  (sort <> "ip" -> Sorted (by_field sort) out) /\
  Permutation out leases.
Proof.
  unfold display_sort. destruct (String.eqb_spec sort "ip") as [->|Hne];
    intros H; apply py_sorted_Sorted in H as [Hs Hp].
  - split; [intros _|split; [congruence|exact Hp]].
    revert Hs. apply Sorted_weaken.
    intros a b (x & y & Ha & Hb & Hxy). unfold by_address, address_key.
    destruct (getitem a "ip") as [va|]; [|discriminate].
    destruct (getitem b "ip") as [vb|]; [|discriminate].
    simpl in *.
    destruct (ip_address config va) as [na|]; [|discriminate].
    destruct (ip_address config vb) as [nb|]; [|discriminate].
    simpl in *. injection Ha as <-. injection Hb as <-.
    exists na, nb. auto.
  - split; [congruence|split; [intros _; exact Hs|exact Hp]].
Qed.

Lemma In_enrich_from (env : Env) (k : nat) (l : list Lease)
  (d : dict pyval) :
  In d (enrich_from env k l) ->
  exists now r, In r l /\ d = enriched env now r.
Proof.
  revert k; induction l as [|x l IH]; simpl; intros k; [tauto|].
  intros [<-|H]; [eauto|].
  destruct (IH _ H) as (now & r & Hr & ->). eauto.
Qed.

(** The display sort by a field that always holds a string returns. *)
Lemma display_sort_text_field_total (config : Env) (sort : string)
  (k : nat) (l : list Lease) :
  In sort ["state"; "start"; "end"; "remaining"; "pool"; "hostname"] ->
  exists out, display_sort config sort (enrich_from config k l) = Ok out.
Proof.
  intros Hsort. unfold display_sort.
  assert (Hne : String.eqb sort "ip" = false)
    by (simpl in Hsort; decompose [or] Hsort; subst; auto; contradiction).
  rewrite Hne. apply py_sorted_total. right.
  exists (fun d => match getitem d sort with
                   | Ok (PStr s) => s
                   | _ => EmptyString
                   end).
  intros d (now & r & _ & ->)%In_enrich_from.
  simpl in Hsort; decompose [or] Hsort; subst; try contradiction;
    reflexivity.
Qed.

(** The display sort by address returns when every address parses. *)
Lemma display_sort_ip_total (config : Env) (k : nat) (l : list Lease) :
  (forall r, In r l -> exists n, ip_address config (PStr (ip r)) = Ok n) ->
  exists out, display_sort config "ip" (enrich_from config k l) = Ok out.
Proof.
  intros Hl. unfold display_sort. simpl String.eqb. cbv iota.
  apply py_sorted_total. left.
  exists (fun d => match address_key config d with
                   | Ok n => n
                   | Raise _ => 0
                   end).
  intros d (now & r & Hr & ->)%In_enrich_from.
  destruct (Hl r Hr) as [n Hn].
  unfold address_key. cbn [enriched getitem dict_get String.eqb Ascii.eqb
                             Bool.eqb rbind].
  now rewrite Hn.
Qed.

(** A key that is [None] takes part in no natural order. *)
Lemma all_str_none (ks : list pyval) : In PNone ks -> all_str ks = None.
Proof.
  induction ks as [|k ks IH]; simpl; [tauto|].
  intros [->|H]; [reflexivity|].
  destruct k; try reflexivity. now rewrite IH.
Qed.

Lemma all_int_none (ks : list pyval) : In PNone ks -> all_int ks = None.
Proof.
  induction ks as [|k ks IH]; simpl; [tauto|].
  intros [->|H]; [reflexivity|].
  destruct k; try reflexivity. now rewrite IH.
Qed.

(** [sorted] on two or more elements, one of them with the key [None],
    raises [TypeError]. *)
Lemma py_sorted_none {A} (key : A -> result pyval) (g : A -> pyval)
  (l : list A) :
  (forall x, In x l -> key x = Ok (g x)) ->
  (exists x, In x l /\ g x = PNone) ->
  (2 <= List.length l)%nat ->
  py_sorted key l = Raise TypeError.
Proof.
  intros Hg (x & Hx & Hn) Hlen. unfold py_sorted.
  rewrite (rmap_Ok_map key g l Hg). cbn [rbind].
  destruct (Nat.leb_spec (List.length l) 1) as [H|_]; [lia|].
  assert (Hin : In PNone (map g l)) by (rewrite <- Hn; now apply in_map).
  now rewrite (all_str_none _ Hin), (all_int_none _ Hin).
Qed.

Lemma enrich_from_In (env : Env) (k : nat) (l : list Lease) (r : Lease) :
  In r l -> exists now, In (enriched env now r) (enrich_from env k l).
Proof.
  revert k; induction l as [|x l IH]; simpl; intros k; [tauto|].
  intros [->|H]; [eauto|].
  destruct (IH (S k) H) as [now Hnow]. eauto.
Qed.

(** The display sort by hardware address returns when at most one lease is
    to be sorted, and when every lease has a hardware address. *)
Lemma display_sort_hardware_address_total (config : Env) (k : nat)
  (l : list Lease) :
  (List.length l <= 1)%nat \/ (forall r, In r l -> ethernet r <> None) ->
  exists out,
    display_sort config "hardware_address" (enrich_from config k l) = Ok out.
Proof.
  unfold display_sort. simpl String.eqb. cbv iota. intros [Hlen|Hall].
  - unfold py_sorted.
    rewrite (rmap_Ok_map _ (fun d => match getitem d "hardware_address" with
                                     | Ok v => v
                                     | Raise _ => PNone
                                     end)).
    + cbn [rbind]. rewrite enrich_from_length.
      destruct (Nat.leb_spec (List.length l) 1) as [_|H]; [eauto|lia].
    + intros d (now & r & _ & ->)%In_enrich_from. reflexivity.
  - apply py_sorted_total. right.
    exists (fun d => match getitem d "hardware_address" with
                     | Ok (PStr s) => s
                     | _ => EmptyString
                     end).
    intros d (now & r & Hr & ->)%In_enrich_from.
    specialize (Hall r Hr).
    cbn [enriched getitem dict_get String.eqb Ascii.eqb Bool.eqb].
    destruct (ethernet r); [reflexivity|contradiction].
Qed.

(** The display sort by hardware address of two or more leases, one of them
    without a hardware address, raises [TypeError]. *)
Lemma display_sort_hardware_address_none (config : Env) (k : nat)
  (l : list Lease) :
  (2 <= List.length l)%nat ->
  (exists r, In r l /\ ethernet r = None) ->
  display_sort config "hardware_address" (enrich_from config k l)
  = Raise TypeError.
Proof.
  intros Hlen (r & Hr & Hn). unfold display_sort. simpl String.eqb. cbv iota.
  apply py_sorted_none
    with (g := fun d => match getitem d "hardware_address" with
                        | Ok v => v
                        | Raise _ => PNone
                        end).
  - intros d (now & r' & _ & ->)%In_enrich_from. reflexivity.
  - destruct (enrich_from_In config k l r Hr) as [now Hnow].
    exists (enriched config now r). split; [exact Hnow|].
    cbn [enriched getitem dict_get String.eqb Ascii.eqb Bool.eqb].
    now rewrite Hn.
  - now rewrite enrich_from_length.
Qed.

(** C8: what [get_leases] returns holds the enriched selected leases, each
    as often as it was selected and no other, rearranged: when the sort key
    is [ip], in the order of the integer values of the addresses, and it
    does return when the journal is readable, the pool is absent or
    configured and every address of the journal parses; for any other sort
    key in the natural order of that field's values, and it does return for
    the fields that always hold text.  The hardware address is text or
    [None]: the sort by it returns when every selected lease has one or at
    most one lease is selected, and raises [TypeError] when two or more
    leases are selected and one of them has none.  Sorting the addresses
    10.0.0.10, 10.0.0.2, 10.0.0.1 by address gives 10.0.0.1, 10.0.0.2,
    10.0.0.10, although as strings 10.0.0.10 comes before 10.0.0.2. *)
Theorem get_leases_display_order :
  (forall (A : Type) (config : Env) (a : A) (state : state_arg)
          (pool : option string) (sort : string) (w w' : world)
          (out : list (dict pyval)),
     get_leases config a state pool sort w = (Ok out, w') ->
     (exists journal,
        read_leases config lease_file = Ok journal /\
        Permutation out
          (enrich_from config (clock_reads w)
             (dedupe (passing state pool journal)))) /\
     (sort = "ip" -> Sorted (by_address config) out) /\
     (sort <> "ip" -> Sorted (by_field sort) out)) /\
  (forall (A : Type) (config : Env) (a : A) (state : state_arg)
          (pool : option string) (w : world) (journal : list Lease),
     read_leases config lease_file = Ok journal ->
     pool_known config pool = true ->
     (forall r, In r journal ->
                exists n, ip_address config (PStr (ip r)) = Ok n) ->
     exists out w',
       get_leases config a state pool "ip" w = (Ok out, w') /\
       Sorted (by_address config) out /\
       Permutation out
         (enrich_from config (clock_reads w)
            (dedupe (passing state pool journal)))) /\
  (forall (A : Type) (config : Env) (a : A) (state : state_arg)
          (pool : option string) (sort : string) (w : world)
          (journal : list Lease),
     read_leases config lease_file = Ok journal ->
     pool_known config pool = true ->
     In sort ["state"; "start"; "end"; "remaining"; "pool"; "hostname"] ->
     exists out w',
       get_leases config a state pool sort w = (Ok out, w') /\
       Sorted (by_field sort) out /\
       Permutation out
         (enrich_from config (clock_reads w)
            (dedupe (passing state pool journal)))) /\
  (forall (A : Type) (config : Env) (a : A) (state : state_arg)
          (pool : option string) (w : world) (journal : list Lease),
     read_leases config lease_file = Ok journal ->
     pool_known config pool = true ->
     let selected := dedupe (passing state pool journal) in
     ((List.length selected <= 1)%nat \/
      (forall r, In r selected -> ethernet r <> None) ->
      exists out w',
        get_leases config a state pool "hardware_address" w = (Ok out, w') /\
        Sorted (by_field "hardware_address") out /\
        Permutation out (enrich_from config (clock_reads w) selected)) /\
     ((2 <= List.length selected)%nat ->
      (exists r, In r selected /\ ethernet r = None) ->
      get_leases config a state pool "hardware_address" w
      = (Raise TypeError,
         ticks (List.length selected) (journal_read lease_file w)))) /\
  (forall config : Env,
     display_sort config "ip"
       [only_ip "10.0.0.10"; only_ip "10.0.0.2"; only_ip "10.0.0.1"]
     = Ok [only_ip "10.0.0.1"; only_ip "10.0.0.2"; only_ip "10.0.0.10"]) /\
  String.ltb "10.0.0.10" "10.0.0.2" = true.
Proof.
  split; [|split; [|split; [|split; [|split]]]].
  - intros A config a state pool sort w w' out H.
    apply get_leases_Ok_inv in H as (journal & Hread & _ & H & _).
    apply display_sort_order in H as (Hip & Hfield & Hperm).
    split; [exists journal; auto|]. split; assumption.
  - intros A config a state pool w journal Hread Hpool Hparse.
    rewrite (get_leases_selected config a state pool "ip" w journal Hread
               Hpool).
    destruct (display_sort_ip_total config (clock_reads w)
                (dedupe (passing state pool journal))) as [out Hout].
    { intros r Hr. apply Hparse. apply dedupe_latest in Hr as [Hr _].
      unfold passing in Hr.
      apply filter_In in Hr as [Hr _]. now apply filter_In in Hr as [Hr _]. }
    rewrite Hout. do 2 eexists. split; [reflexivity|].
    apply display_sort_order in Hout as (Hs & _ & Hperm). auto.
  - intros A config a state pool sort w journal Hread Hpool Hsort.
    rewrite (get_leases_selected config a state pool sort w journal Hread
               Hpool).
    destruct (display_sort_text_field_total config sort (clock_reads w)
                (dedupe (passing state pool journal)) Hsort) as [out Hout].
    rewrite Hout. do 2 eexists. split; [reflexivity|].
    apply display_sort_order in Hout as (_ & Hs & Hperm).
    split; [|exact Hperm]. apply Hs.
    simpl in Hsort. decompose [or] Hsort; subst; try discriminate.
    contradiction.
  - intros A config a state pool w journal Hread Hpool selected.
    rewrite (get_leases_selected config a state pool "hardware_address" w
               journal Hread Hpool).
    fold selected. split.
    + intros Hsel.
      destruct (display_sort_hardware_address_total config (clock_reads w)
                  selected Hsel) as [out Hout].
      rewrite Hout. do 2 eexists. split; [reflexivity|].
      apply display_sort_order in Hout as (_ & Hs & Hperm).
      split; [|exact Hperm]. apply Hs. discriminate.
    + intros Hlen Hnone.
      now rewrite (display_sort_hardware_address_none config (clock_reads w)
                     selected Hlen Hnone).
  - intros config. reflexivity.
  - reflexivity.
Qed.

Lemma get_leases_display_order_witness :
  exists out w',
    get_leases
      (sample_env [sample_lease "10.0.0.10" 1 "active" None;
                   sample_lease "10.0.0.2" 2 "active" None;
                   sample_lease "10.0.0.1" 3 "active" None])
      tt (StateList ["active"]) None "ip" world0
    = (Ok out, w') /\
    Sorted (by_address
              (sample_env [sample_lease "10.0.0.10" 1 "active" None;
                           sample_lease "10.0.0.2" 2 "active" None;
                           sample_lease "10.0.0.1" 3 "active" None])) out /\
    map (dict_get "ip") out
    = [Some (PStr "10.0.0.1"); Some (PStr "10.0.0.2");
       Some (PStr "10.0.0.10")].
Proof.
  do 2 eexists. split; [vm_compute; reflexivity|]. split.
  - refine (proj1 (proj2 (proj1 get_leases_display_order unit _ tt
                            (StateList ["active"]) None "ip" world0 _ _ _))
              eq_refl).
    vm_compute. reflexivity.
  - reflexivity.
Defined.

(** ** Pool statistics *)

Lemma rmap_app {A B} (f : A -> result B) (l1 l2 : list A) :
  rmap f (l1 ++ l2)
  = rbind (rmap f l1) (fun a => rbind (rmap f l2) (fun b => Ok (a ++ b))).
Proof.
  induction l1 as [|x l1 IH]; simpl.
  - now destruct (rmap f l2).
  - destruct (f x); simpl; [|reflexivity]. rewrite IH.
    destruct (rmap f l1); simpl; [|reflexivity].
    now destruct (rmap f l2).
Qed.

Lemma sum_Z_app (l1 l2 : list Z) : sum_Z (l1 ++ l2) = sum_Z l1 + sum_Z l2.
Proof. induction l1 as [|x l1 IH]; simpl; [reflexivity|]. rewrite IH. lia. Qed.

(** An accumulating loop adds up what each step contributes. *)
Lemma rfold_sum {B} (f : Z -> B -> result Z) (g : B -> result Z)
  (l : list B) (a : Z) :
  (forall a x, f a x = rbind (g x) (fun n => Ok (a + n))) ->
  rfold f l a = rbind (rmap g l) (fun ns => Ok (a + sum_Z ns)).
Proof.
  intros Hf. revert a; induction l as [|x l IH]; simpl; intros a.
  - now rewrite Z.add_0_r.
  - rewrite Hf. destruct (g x) as [n|e]; simpl; [|reflexivity].
    rewrite IH. destruct (rmap g l); simpl; [|reflexivity].
    f_equal. lia.
Qed.

Lemma rmap_flat_map_sum {A B} (g : B -> result Z) (R : A -> list B)
  (l : list A) :
  rbind (rmap (fun s => rbind (rmap g (R s)) (fun ns => Ok (sum_Z ns))) l)
        (fun ns => Ok (sum_Z ns))
  = rbind (rmap g (flat_map R l)) (fun ns => Ok (sum_Z ns)).
Proof.
  induction l as [|s l IH]; simpl; [reflexivity|].
  rewrite rmap_app.
  destruct (rmap g (R s)) as [a|e]; simpl; [|reflexivity].
  destruct (rmap g (flat_map R l)) as [b|e];
    destruct (rmap _ l) as [c|e']; simpl in *; try congruence.
  injection IH as IH. now rewrite sum_Z_app, IH.
Qed.

Lemma rmap_map {A B C} (f : B -> result C) (g : A -> B) (l : list A) :
  rmap f (map g l) = rmap (fun x => f (g x)) l.
Proof.
  induction l as [|x l IH]; simpl; [reflexivity|]. now rewrite IH.
Qed.

Lemma rbind_assoc_sum (r : result (list Z)) (a : Z) :
  rbind r (fun ns => Ok (a + sum_Z ns))
  = rbind (rbind r (fun ns => Ok (sum_Z ns))) (fun n => Ok (a + n)).
Proof. now destruct r. Qed.

(** The size of a pool is the sum of the sizes of all its ranges. *)
Lemma get_pool_size_sum (config : Env) (pool : string) :
  get_pool_size config pool
  = rbind (rmap (range_size config) (pool_ranges config pool))
          (fun sizes => Ok (sum_Z sizes)).
Proof.
  unfold get_pool_size, pool_ranges. cbv zeta.
  rewrite <- rmap_flat_map_sum.
  rewrite rfold_sum
    with (g := fun s =>
                 rbind (rmap (range_size config)
                             (subnet_ranges config pool s))
                       (fun ns => Ok (sum_Z ns))).
  - now destruct (rmap _ _).
  - intros a s. unfold subnet_ranges.
    rewrite rmap_map, <- rbind_assoc_sum.
    apply rfold_sum. intros a' r. unfold range_size, range_bounds.
    cbn [fst snd].
    destruct (ip_address config _); simpl; [|reflexivity].
    now destruct (ip_address config _).
Qed.

Lemma pool_statistics_run (conf : Env) (json : bool) (p : string)
  (w : world) :
  pool_statistics conf json p w
  = match get_pool_size conf p with
    | Raise e => (Raise e, w)
    | Ok size =>
        match get_leases conf lease_file (StateStr "active") (Some p) "ip" w
        with
        | (Raise e, w1) => (Raise e, w1)
        | (Ok leases, w1) =>
            match use_percentage (Z.of_nat (List.length leases)) size with
            | Raise e => (Raise e, w1)
            | Ok pct =>
                (Ok (pool_stats json p size
                       (Z.of_nat (List.length leases)) pct), w1)
            end
        end
    end.
Proof.
  unfold pool_statistics, bind, lift, ret.
  destruct (get_pool_size conf p); [|reflexivity].
  destruct (get_leases _ _ _ _ _ w) as [[leases|e] w1]; [|reflexivity].
  now destruct (use_percentage _ _).
Qed.

(** ** Binary64 rounding *)

Lemma digits2_pos_bounds (p : positive) :
  2 ^ (Zpos (digits2_pos p) - 1) <= Zpos p < 2 ^ Zpos (digits2_pos p).
Proof.
  induction p as [p IH|p IH|]; cbn [digits2_pos].
  - rewrite Pos2Z.inj_succ.
    replace (Z.succ (Zpos (digits2_pos p)) - 1)
      with (Z.succ (Zpos (digits2_pos p) - 1)) by lia.
    rewrite !Z.pow_succ_r by lia. lia.
  - rewrite Pos2Z.inj_succ.
    replace (Z.succ (Zpos (digits2_pos p)) - 1)
      with (Z.succ (Zpos (digits2_pos p) - 1)) by lia.
    rewrite !Z.pow_succ_r by lia. lia.
  - simpl. lia.
Qed.

Lemma digits_unique (z d k : Z) :
  0 < d -> 0 < k ->
  2 ^ (d - 1) <= z < 2 ^ d -> 2 ^ (k - 1) <= z < 2 ^ k -> d = k.
Proof.
  intros Hd Hk [H1 H2] [H3 H4].
  destruct (Z.lt_trichotomy d k) as [H|[H|H]]; [|exact H|].
  - assert (2 ^ d <= 2 ^ (k - 1)) by (apply Z.pow_le_mono_r; lia). lia.
  - assert (2 ^ k <= 2 ^ (d - 1)) by (apply Z.pow_le_mono_r; lia). lia.
Qed.

Lemma shr_m_shr_1 (mrs : shr_record) :
  0 <= shr_m mrs -> shr_m (shr_1 mrs) = shr_m mrs / 2.
Proof.
  destruct mrs as [m r s]. cbn [shr_m]. intros Hm.
  destruct m as [|p|p]; [reflexivity| |lia].
  destruct p as [p|p|]; cbn [shr_1 shr_m].
  - rewrite Pos2Z.inj_xI. apply Z.div_unique with 1; lia.
  - rewrite Pos2Z.inj_xO. apply Z.div_unique with 0; lia.
  - reflexivity.
Qed.

Lemma shr_m_iter_pos (p : positive) (mrs : shr_record) :
  0 <= shr_m mrs ->
  shr_m (iter_pos shr_1 p mrs) = shr_m mrs / 2 ^ Zpos p.
Proof.
  revert mrs; induction p as [p IH|p IH|]; intros mrs Hm; cbn [iter_pos].
  - assert (H1 : 0 <= shr_m (shr_1 mrs))
      by (rewrite shr_m_shr_1 by exact Hm; apply Z.div_pos; lia).
    assert (H2 : 0 <= shr_m (iter_pos shr_1 p (shr_1 mrs)))
      by (rewrite IH by exact H1; apply Z.div_pos; lia).
    rewrite IH by exact H2. rewrite IH by exact H1.
    rewrite shr_m_shr_1 by exact Hm.
    rewrite !Z.div_div by lia.
    rewrite Pos2Z.inj_xI.
    replace (2 * Zpos p + 1) with (1 + Zpos p + Zpos p) by lia.
    rewrite !Z.pow_add_r by lia. rewrite Z.pow_1_r. f_equal. ring.
  - assert (H1 : 0 <= shr_m (iter_pos shr_1 p mrs))
      by (rewrite IH by exact Hm; apply Z.div_pos; lia).
    rewrite IH by exact H1. rewrite IH by exact Hm.
    rewrite Z.div_div by lia.
    replace (Zpos p~0) with (Zpos p + Zpos p) by lia.
    rewrite Z.pow_add_r by lia. reflexivity.
  - rewrite shr_m_shr_1 by exact Hm. reflexivity.
Qed.

Lemma shr_m_of_loc (m : Z) (l : location) :
  shr_m (shr_record_of_loc m l) = m.
Proof. destruct l as [|[| |]]; reflexivity. Qed.

(** Shifting to the working precision: the mantissa loses its
    [d - 53] lowest bits. *)
Lemma shr_fexp_shifts (mx ex d : Z) (lx : location) :
  0 < mx -> Zdigits2 mx = d -> 53 <= d -> -1074 <= ex ->
  exists mrs,
    shr_fexp prec emax mx ex lx = (mrs, ex + (d - 53)) /\
    shr_m mrs = mx / 2 ^ (d - 53).
Proof.
  intros Hmx Hd Hd53 Hex. unfold shr_fexp. rewrite Hd.
  unfold fexp, SpecFloat.emin, prec, emax.
  replace (Z.max (d + ex - 53) (3 - 1024 - 53) - ex) with (d - 53) by lia.
  unfold shr. destruct (d - 53) as [|p|p] eqn:E; [| |lia].
  - eexists. split.
    + rewrite Z.add_0_r. reflexivity.
    + rewrite shr_m_of_loc. simpl. now rewrite Z.div_1_r.
  - eexists. split; [reflexivity|].
    rewrite shr_m_iter_pos by (rewrite shr_m_of_loc; lia).
    now rewrite shr_m_of_loc.
Qed.

Lemma round_nearest_even_range (m : Z) (l : location) :
  round_nearest_even m l = m \/ round_nearest_even m l = m + 1.
Proof.
  destruct l as [|[| |]]; simpl; auto. destruct (Z.even m); auto.
Qed.

Lemma Zdigits2_bounds (z : Z) :
  0 < z -> 0 < Zdigits2 z /\ 2 ^ (Zdigits2 z - 1) <= z < 2 ^ Zdigits2 z.
Proof.
  destruct z as [|p|p]; try lia. intros _. simpl Zdigits2.
  split; [lia | apply digits2_pos_bounds].
Qed.

Lemma Zdigits2_eq (z k : Z) :
  0 < k -> 2 ^ (k - 1) <= z < 2 ^ k -> Zdigits2 z = k.
Proof.
  intros Hk Hz.
  assert (0 < z)
    by (assert (0 < 2 ^ (k - 1)) by (apply Z.pow_pos_nonneg; lia); lia).
  destruct (Zdigits2_bounds z H) as [Hd Hb].
  eapply digits_unique; eauto.
Qed.

(** Rounding a mantissa of at least 53 bits: the result is a normal
    number within one unit in the last place of the value rounded. *)
Lemma binary_round_aux_normal (sx : bool) (mx ex d : Z) (lx : location) :
  0 < mx -> Zdigits2 mx = d -> 53 <= d -> -1074 <= ex ->
  ex + d - 52 <= 971 ->
  exists (m : positive) (e : Z),
    binary_round_aux prec emax sx mx ex lx = S754_finite sx m e /\
    2 ^ 52 <= Zpos m < 2 ^ 53 /\
    ex + (d - 53) <= e <= ex + (d - 52) /\
    (Zpos m - 1) * 2 ^ (e - ex) <= mx /\
    mx + 1 <= (Zpos m + 1) * 2 ^ (e - ex).
Proof.
  intros Hmx Hd Hd53 Hex Hover.
  destruct (Zdigits2_bounds mx Hmx) as [_ Hb]. rewrite Hd in Hb.
  set (n := d - 53) in *.
  assert (Hn : 0 <= n) by (unfold n; lia).
  assert (Hpn : 0 < 2 ^ n) by (apply Z.pow_pos_nonneg; lia).
  set (m0 := mx / 2 ^ n).
  assert (Hm0 : m0 * 2 ^ n <= mx < (m0 + 1) * 2 ^ n).
  { unfold m0. pose proof (Z.div_mod mx (2 ^ n) ltac:(lia)).
    pose proof (Z.mod_pos_bound mx (2 ^ n) Hpn). nia. }
  assert (Hlo : 2 ^ (d - 1) = 2 ^ n * 2 ^ 52).
  { replace (d - 1) with (n + 52) by (unfold n; lia).
    apply Z.pow_add_r; lia. }
  assert (Hhi : 2 ^ d = 2 ^ n * 2 ^ 53).
  { replace d with (n + 53) at 1 by (unfold n; lia).
    apply Z.pow_add_r; lia. }
  rewrite Hlo, Hhi in Hb.
  assert (Hm0r : 2 ^ 52 <= m0 < 2 ^ 53).
  { split.
    - apply Z.div_le_lower_bound; [exact Hpn | apply Hb].
    - apply Z.div_lt_upper_bound; [exact Hpn | apply Hb]. }
  unfold binary_round_aux.
  destruct (shr_fexp_shifts mx ex d lx Hmx Hd Hd53 Hex) as (mrs & -> & Hmrs).
  fold n in Hmrs |- *. fold m0 in Hmrs. rewrite Hmrs.
  set (m1 := round_nearest_even m0 (loc_of_shr_record mrs)).
  assert (Hm1 : m1 = m0 \/ m1 = m0 + 1) by apply round_nearest_even_range.
  destruct (Z.eq_dec m1 (2 ^ 53)) as [Hc|Hc].
  - (* the rounding carried into a 54th bit *)
    assert (Hd1 : Zdigits2 m1 = 54)
      by (rewrite Hc; reflexivity).
    destruct (shr_fexp_shifts m1 (ex + n) 54 loc_Exact) as (mrs2 & -> & Hm2);
      try lia.
    rewrite Hm2, Hc. change (2 ^ 53 / 2 ^ (54 - 53)) with (Zpos (2 ^ 52)).
    assert (Hle : (ex + n + (54 - 53) <=? emax - prec) = true)
      by (apply Z.leb_le; unfold emax, prec, n; lia).
    rewrite Hle. do 2 eexists. split; [reflexivity|].
    replace (ex + n + (54 - 53) - ex) with (n + 1) by lia.
    rewrite Z.pow_add_r by lia. change (2 ^ 1) with 2.
    split; [simpl; lia|]. split; [unfold n; lia|].
    change (Zpos (2 ^ 52)) with (2 ^ 52).
    assert (m0 = 2 ^ 53 - 1) by lia.
    split; nia.
  - assert (Hr : 2 ^ 52 <= m1 < 2 ^ 53) by lia.
    assert (Hd1 : Zdigits2 m1 = 53) by (apply Zdigits2_eq; [lia|exact Hr]).
    destruct (shr_fexp_shifts m1 (ex + n) 53 loc_Exact) as (mrs2 & -> & Hm2);
      try lia.
    rewrite Hm2. change (2 ^ (53 - 53)) with 1. rewrite Z.div_1_r.
    destruct m1 as [|p1|p1] eqn:Ep; try lia.
    assert (Hle : (ex + n + (53 - 53) <=? emax - prec) = true)
      by (apply Z.leb_le; unfold emax, prec, n; lia).
    rewrite Hle. do 2 eexists. split; [reflexivity|].
    replace (ex + n + (53 - 53) - ex) with n by lia.
    split; [exact Hr|]. split; [unfold n; lia|].
    split; nia.
Qed.

Lemma pow2_digits_lower (z d k : Z) :
  0 <= k -> 2 ^ k <= z -> z < 2 ^ d -> k < d.
Proof.
  intros Hk H1 H2. destruct (Z_lt_le_dec k d) as [H|H]; [exact H|].
  assert (2 ^ d <= 2 ^ k) by (apply Z.pow_le_mono_r; lia). lia.
Qed.

Lemma pow2_digits_upper (z d k : Z) :
  0 < d -> 2 ^ (d - 1) <= z -> z < 2 ^ k -> d <= k.
Proof.
  intros Hd H1 H2. destruct (Z_lt_le_dec k d) as [H|H]; [|exact H].
  assert (2 ^ k <= 2 ^ (d - 1)) by (apply Z.pow_le_mono_r; lia). lia.
Qed.

(** The quotient of two positive integers, before rounding: the numerator
    is shifted so that the integer quotient has 53 or 54 bits. *)
Lemma SFdiv_core_binary_int (pa pb : positive) :
  Zpos pa < 2 ^ 40 -> Zpos pb < 2 ^ 128 ->
  let s := 53 + Zpos (digits2_pos pb) - Zpos (digits2_pos pa) in
  exists l,
    SFdiv_core_binary prec emax (Zpos pa) 0 (Zpos pb) 0
    = (Zpos pa * 2 ^ s / Zpos pb, - s, l) /\
    14 <= s <= 181 /\
    2 ^ 52 <= Zpos pa * 2 ^ s / Zpos pb < 2 ^ 54.
Proof.
  intros Ha Hb s.
  pose proof (digits2_pos_bounds pa) as Hda.
  pose proof (digits2_pos_bounds pb) as Hdb.
  set (d1 := Zpos (digits2_pos pa)) in *.
  set (d2 := Zpos (digits2_pos pb)) in *.
  assert (Hd1 : 0 < d1 <= 40).
  { split; [unfold d1; lia|].
    apply (pow2_digits_upper (Zpos pa)); unfold d1 in *; lia. }
  assert (Hd2 : 0 < d2 <= 128).
  { split; [unfold d2; lia|].
    apply (pow2_digits_upper (Zpos pb)); unfold d2 in *; lia. }
  assert (Hs : 14 <= s <= 181) by (unfold s; lia).
  unfold SFdiv_core_binary. cbn [Zdigits2]. fold d1 d2.
  replace (Z.min (fexp prec emax (d1 + 0 - (d2 + 0))) (0 - 0)) with (- s)
    by (unfold fexp, SpecFloat.emin, prec, emax, s; lia).
  replace (0 - 0 - - s) with s by lia.
  destruct s as [|ps|ps] eqn:Es; try lia. rewrite <- Es.
  rewrite Z.shiftl_mul_pow2 by lia.
  assert (Hq : fst (Z.div_eucl (Zpos pa * 2 ^ s) (Zpos pb))
               = Zpos pa * 2 ^ s / Zpos pb) by reflexivity.
  destruct (Z.div_eucl (Zpos pa * 2 ^ s) (Zpos pb)) as [q r].
  cbn [fst] in Hq. subst q.
  eexists. split; [reflexivity|]. split; [lia|].
  assert (Hps : 0 < 2 ^ s) by (apply Z.pow_pos_nonneg; lia).
  assert (H1 : 2 ^ (d1 - 1) * 2 ^ s = 2 ^ 52 * 2 ^ d2).
  { rewrite <- !Z.pow_add_r by lia. f_equal. unfold s. lia. }
  assert (H2 : 2 ^ d1 * 2 ^ s = 2 ^ 54 * 2 ^ (d2 - 1)).
  { rewrite <- !Z.pow_add_r by lia. f_equal. unfold s. lia. }
  split.
  - apply Z.div_le_lower_bound; [lia|]. nia.
  - apply Z.div_lt_upper_bound; [lia|]. nia.
Qed.

(** [a / b] for a count [a] and a size [b]: a normal number within one
    unit in the last place of the exact quotient. *)
Lemma py_truediv_bounds (a b : Z) :
  0 < a < 2 ^ 40 -> b <> 0 -> Z.abs b < 2 ^ 128 ->
  exists (m : positive) (e : Z),
    py_truediv a b = Ok (S754_finite (b <? 0) m e) /\
    2 ^ 52 <= Zpos m < 2 ^ 53 /\
    -181 <= e <= -12 /\
    (Zpos m - 1) * Z.abs b <= a * 2 ^ (- e) /\
    a * 2 ^ (- e) < (Zpos m + 1) * Z.abs b.
Proof.
  intros Ha Hb0 Hb.
  unfold py_truediv. rewrite (proj2 (Z.eqb_neq b 0) Hb0).
  destruct a as [|pa|pa]; try lia.
  assert (Hexact : exists pb, exact_of_Z b = S754_finite (b <? 0) pb 0 /\
                              Zpos pb = Z.abs b)
    by (destruct b as [|pb|pb]; [lia| |]; eexists; split; reflexivity).
  destruct Hexact as (pb & -> & Hpb). rewrite <- Hpb in *.
  cbn [exact_of_Z SFdiv xorb].
  destruct (SFdiv_core_binary_int pa pb) as (l & -> & Hs & Hq); try lia.
  set (s := 53 + Zpos (digits2_pos pb) - Zpos (digits2_pos pa)) in *.
  set (q := Zpos pa * 2 ^ s / Zpos pb) in *.
  assert (Hq0 : 0 < q) by lia.
  destruct (Zdigits2_bounds q Hq0) as [Hdpos Hdq].
  assert (Hd : 53 <= Zdigits2 q <= 54).
  { split.
    - assert (52 < Zdigits2 q); [|lia].
      apply (pow2_digits_lower q); lia.
    - apply (pow2_digits_upper q); lia. }
  destruct (binary_round_aux_normal (b <? 0) q (- s) (Zdigits2 q) l)
    as (m & e & Hr & Hm & He & Hlo & Hhi); try lia.
  rewrite Hr. exists m, e. split; [reflexivity|]. split; [exact Hm|].
  split; [lia|].
  assert (Hps : 0 < 2 ^ s) by (apply Z.pow_pos_nonneg; lia).
  assert (Hqb : q * Zpos pb <= Zpos pa * 2 ^ s < (q + 1) * Zpos pb).
  { unfold q.
    pose proof (Z.div_mod (Zpos pa * 2 ^ s) (Zpos pb) ltac:(lia)).
    pose proof (Z.mod_pos_bound (Zpos pa * 2 ^ s) (Zpos pb) ltac:(lia)).
    nia. }
  set (t := e - - s) in *.
  assert (Ht : 0 <= t <= 2) by (unfold t; lia).
  assert (Hpt : 0 < 2 ^ t) by (apply Z.pow_pos_nonneg; lia).
  assert (Hsplit : 2 ^ s = 2 ^ (- e) * 2 ^ t).
  { rewrite <- Z.pow_add_r by lia. f_equal. unfold t. lia. }
  rewrite Hsplit in Hqb.
  split.
  - apply (Z.mul_le_mono_pos_r _ _ (2 ^ t)); [exact Hpt|]. nia.
  - apply (Z.mul_lt_mono_pos_r (2 ^ t)); [exact Hpt|]. nia.
Qed.

Lemma float_of_Z_100 :
  float_of_Z 100 = S754_finite false 7036874417766400 (-46).
Proof. reflexivity. Qed.

(** [q * 100] for a normal number [q]: a normal number within one unit in
    the last place of the exact product. *)
Lemma py_mul_int_100_bounds (s : bool) (m : positive) (e : Z) :
  2 ^ 52 <= Zpos m < 2 ^ 53 -> -181 <= e <= -12 ->
  exists (m' : positive) (e' : Z),
    py_mul_int (S754_finite s m e) 100 = S754_finite s m' e' /\
    2 ^ 52 <= Zpos m' < 2 ^ 53 /\
    e + 6 <= e' <= e + 8 /\
    (Zpos m' - 1) * 2 ^ (e' - (e - 46)) <= Zpos m * (100 * 2 ^ 46) /\
    Zpos m * (100 * 2 ^ 46) + 1 <= (Zpos m' + 1) * 2 ^ (e' - (e - 46)).
Proof.
  intros Hm He. unfold py_mul_int. rewrite float_of_Z_100.
  cbn [SFmul]. rewrite xorb_false_r, Pos2Z.inj_mul.
  change (Zpos 7036874417766400) with (100 * 2 ^ 46).
  change (e + -46) with (e + (-46)).
  set (mx := Zpos m * (100 * 2 ^ 46)).
  assert (Hmx : 2 ^ 104 <= mx < 2 ^ 106).
  { unfold mx.
    change (2 ^ 104) with (2 ^ 52 * 2 ^ 52).
    change (2 ^ 106) with (2 ^ 53 * 2 ^ 53).
    assert (2 ^ 52 <= 100 * 2 ^ 46 < 2 ^ 53)
      by (split; [discriminate | reflexivity]).
    assert (0 < 2 ^ 52) by reflexivity.
    nia. }
  assert (Hmx0 : 0 < mx) by lia.
  destruct (Zdigits2_bounds mx Hmx0) as [Hdpos Hdq].
  assert (Hd : 105 <= Zdigits2 mx <= 106).
  { split.
    - assert (104 < Zdigits2 mx); [|lia].
      apply (pow2_digits_lower mx); lia.
    - apply (pow2_digits_upper mx); lia. }
  destruct (binary_round_aux_normal s mx (e + -46) (Zdigits2 mx) loc_Exact)
    as (m' & e' & Hr & Hm' & He' & Hlo & Hhi); try lia.
  rewrite Hr. exists m', e'. split; [reflexivity|]. split; [exact Hm'|].
  split; [lia|].
  replace (e' - (e - 46)) with (e' - (e + -46)) by lia. auto.
Qed.

(** [round(x)] for a number with a fraction: an integer nearest to it. *)
Lemma py_round_bounds (s : bool) (m : positive) (e : Z) :
  e < 0 ->
  exists n,
    py_round (S754_finite s m e) = Ok (if s then - n else n) /\
    2 * Z.abs (n * 2 ^ (- e) - Zpos m) <= 2 ^ (- e).
Proof.
  intros He. destruct e as [|p|p]; try lia.
  cbn [py_round]. rewrite Z.pow_pos_fold.
  change (- Zneg p) with (Zpos p).
  set (d := 2 ^ Zpos p).
  assert (Hd : 0 < d) by (apply Z.pow_pos_nonneg; lia).
  pose proof (Z.div_mod (Zpos m) d ltac:(lia)) as Hdm.
  pose proof (Z.mod_pos_bound (Zpos m) d Hd) as Hmod.
  set (q := Zpos m / d) in *. set (r := Zpos m mod d) in *.
  eexists. split; [reflexivity|].
  destruct (2 * r ?= d) eqn:E.
  - apply Z.compare_eq in E. clearbody d q r. destruct (Z.even q); nia.
  - rewrite Z.compare_lt_iff in E. clearbody d q r. nia.
  - rewrite Z.compare_gt_iff in E. clearbody d q r. nia.
Qed.

(** The error budget of line 241: two roundings to 53 bits and one to an
    integer leave an integer nearest to the exact percentage. *)
Lemma nearest_percent_algebra (a B U T K P m m' n : Z) :
  0 < a < 2 ^ 40 -> 0 < B -> 0 < U -> 0 < T -> 0 < K -> 0 < P ->
  K * T = U * P ->
  2 ^ 52 <= m < 2 ^ 53 -> 2 ^ 52 <= m' < 2 ^ 53 ->
  (m - 1) * B <= a * U -> a * U < (m + 1) * B ->
  (m' - 1) * T <= m * (100 * P) -> m * (100 * P) + 1 <= (m' + 1) * T ->
  2 * Z.abs (n * K - m') <= K ->
  2 * Z.abs (n * B - 100 * a) <= B.
Proof.
  change (2 ^ 40) with 1099511627776.
  change (2 ^ 52) with 4503599627370496.
  change (2 ^ 53) with 9007199254740992.
  intros Ha HB HU HT HK HP HKT Hm Hm' HD1 HD2 HM1 HM2 HR.
  assert (HTP : T <= 201 * P).
  { destruct (Z_le_gt_dec T (201 * P)) as [H|H]; [exact H|]. exfalso.
    assert ((4503599627370496 - 1) * T <= (m' - 1) * T)
      by (apply Z.mul_le_mono_nonneg_r; lia).
    assert (m * P <= 9007199254740992 * P)
      by (apply Z.mul_le_mono_nonneg_r; lia).
    lia. }
  assert (HUB : 602 * B < U).
  { destruct (Z_lt_le_dec (602 * B) U) as [H|H]; [exact H|]. exfalso.
    assert ((4503599627370496 - 1) * B <= (m - 1) * B)
      by (apply Z.mul_le_mono_nonneg_r; lia).
    assert (a * U <= a * (602 * B))
      by (apply Z.mul_le_mono_nonneg_l; lia).
    assert (a * B <= 1099511627776 * B)
      by (apply Z.mul_le_mono_nonneg_r; lia).
    lia. }
  set (E1 := m * B - a * U).
  set (E2 := m' * T - m * (100 * P)).
  set (E3 := n * K - m').
  assert (HE1 : - B <= E1 <= B) by (unfold E1; lia).
  assert (HE2 : - T <= E2 <= T) by (unfold E2; lia).
  assert (HE3 : - K <= 2 * E3 <= K) by (unfold E3; lia).
  set (D := n * B - 100 * a).
  assert (Hid : D * (K * T) = B * E2 + (B * T) * E3 + 100 * (P * E1)).
  { transitivity (n * B * (K * T) - 100 * a * (K * T));
      [unfold D; ring|].
    rewrite HKT at 2. unfold E1, E2, E3. ring_simplify.
    replace (n * B * K * T) with (n * B * (K * T)) by ring.
    rewrite HKT. ring. }
  assert (HBT : 0 < B * T) by (apply Z.mul_pos_pos; lia).
  assert (HKT0 : 0 < K * T) by (apply Z.mul_pos_pos; lia).
  assert (H1 : - (B * T) <= B * E2 <= B * T).
  { split.
    - replace (- (B * T)) with (B * - T) by ring.
      apply Z.mul_le_mono_nonneg_l; lia.
    - apply Z.mul_le_mono_nonneg_l; lia. }
  assert (H2 : - ((B * T) * K) <= (B * T) * (2 * E3) <= (B * T) * K).
  { split.
    - replace (- (B * T * K)) with (B * T * - K) by ring.
      apply Z.mul_le_mono_nonneg_l; lia.
    - apply Z.mul_le_mono_nonneg_l; lia. }
  assert (H3 : - (P * B) <= P * E1 <= P * B).
  { split.
    - replace (- (P * B)) with (P * - B) by ring.
      apply Z.mul_le_mono_nonneg_l; lia.
    - apply Z.mul_le_mono_nonneg_l; lia. }
  assert (H4 : B * T <= 201 * (P * B)).
  { replace (201 * (P * B)) with (B * (201 * P)) by ring.
    apply Z.mul_le_mono_nonneg_l; lia. }
  assert (H5 : (602 * B + 1) * P <= K * T).
  { rewrite HKT. apply Z.mul_le_mono_nonneg_r; lia. }
  assert (HDabs : - B <= 2 * D <= B); [|unfold D in HDabs; lia].
  split.
  - destruct (Z_le_gt_dec (- B) (2 * D)) as [H|H]; [exact H|]. exfalso.
    assert (H6 : (2 * D) * (K * T) <= (- B - 1) * (K * T))
      by (apply Z.mul_le_mono_nonneg_r; lia).
    replace (2 * D * (K * T)) with (2 * (D * (K * T))) in H6 by ring.
    rewrite Hid in H6.
    replace ((- B - 1) * (K * T)) with (- (B * T * K) - K * T) in H6 by ring.
    replace (B * T * (2 * E3)) with (2 * (B * T * E3)) in H2 by ring.
    lia.
  - destruct (Z_le_gt_dec (2 * D) B) as [H|H]; [exact H|]. exfalso.
    assert (H6 : (B + 1) * (K * T) <= (2 * D) * (K * T))
      by (apply Z.mul_le_mono_nonneg_r; lia).
    replace (2 * D * (K * T)) with (2 * (D * (K * T))) in H6 by ring.
    rewrite Hid in H6.
    replace ((B + 1) * (K * T)) with (B * T * K + K * T) in H6 by ring.
    replace (B * T * (2 * E3)) with (2 * (B * T * E3)) in H2 by ring.
    lia.
Qed.

Lemma use_percentage_zero (size : Z) : use_percentage 0 size = Ok 0.
Proof.
  unfold use_percentage, py_truediv.
  destruct (size =? 0) eqn:E; [reflexivity|]. simpl negb. cbv iota.
  destruct size as [|p|p]; [discriminate E| |]; reflexivity.
Qed.

(** Line 241 on a count below 2^40 and a size that is not zero and below
    2^128 in magnitude: the use is computed, and it is an integer nearest
    to the exact percentage. *)
Lemma use_percentage_nearest (a b : Z) :
  0 <= a < 2 ^ 40 -> b <> 0 -> Z.abs b < 2 ^ 128 ->
  exists pct,
    use_percentage a b = Ok pct /\
    2 * Z.abs (pct * b - 100 * a) <= Z.abs b.
Proof.
  intros Ha Hb0 Hb.
  destruct (Z.eq_dec a 0) as [->|Ha0].
  - exists 0. split; [apply use_percentage_zero | lia].
  - unfold use_percentage. rewrite (proj2 (Z.eqb_neq b 0) Hb0). cbn [negb].
    destruct (py_truediv_bounds a b) as (m & e & -> & Hm & He & HD1 & HD2);
      try lia.
    cbn [rbind].
    destruct (py_mul_int_100_bounds (b <? 0) m e Hm He)
      as (m' & e' & -> & Hm' & He' & HM1 & HM2).
    destruct (py_round_bounds (b <? 0) m' e') as (n & -> & HR); [lia|].
    eexists. split; [reflexivity|].
    assert (Hgoal : 2 * Z.abs (n * Z.abs b - 100 * a) <= Z.abs b).
    { eapply (nearest_percent_algebra a (Z.abs b) (2 ^ (- e))
                (2 ^ (e' - (e - 46))) (2 ^ (- e')) (2 ^ 46) (Zpos m)
                (Zpos m') n); try eassumption; try lia;
        try (apply Z.pow_pos_nonneg; lia).
      rewrite <- !Z.pow_add_r by lia. f_equal. lia. }
    destruct (b <? 0) eqn:Eb.
    + apply Z.ltb_lt in Eb.
      replace (- n * b) with (n * Z.abs b) by (rewrite Z.abs_neq; lia).
      exact Hgoal.
    + apply Z.ltb_ge in Eb.
      replace (n * b) with (n * Z.abs b) by (rewrite Z.abs_eq; lia).
      exact Hgoal.
Qed.

(** An integer within one half of the exact percentage is the exactly
    rounded one, unless the exact percentage lies half-way between two
    integers. *)
Lemma nearest_is_exact (a d p : Z) :
  d <> 0 ->
  2 * Z.abs (p * d - 100 * a) <= Z.abs d ->
  2 * Z.abs ((100 * a) mod d) <> Z.abs d ->
  p = exact_percentage a d.
Proof.
  intros Hd Hp Htie. unfold exact_percentage. cbv zeta.
  set (n := 100 * a) in *.
  pose proof (Z.div_mod n d Hd) as Hn.
  set (q := n / d) in *. set (r := n mod d) in *.
  assert (Hr : (0 < d /\ 0 <= r < d) \/ (d < 0 /\ d < r <= 0)).
  { destruct (Z_lt_le_dec 0 d) as [H|H].
    - left. split; [exact H|]. apply Z.mod_pos_bound; exact H.
    - right. assert (d < 0) by lia. split; [assumption|].
      apply Z.mod_neg_bound; assumption. }
  clearbody q r.
  assert (Hk : p * d - n = (p - q) * d - r) by (rewrite Hn; ring).
  rewrite Hk in Hp.
  destruct (Z.compare_spec (2 * Z.abs r) (Z.abs d)) as [E|E|E];
    [contradiction| |].
  - destruct (Z.lt_trichotomy p q) as [H|[H|H]]; [exfalso|exact H|exfalso].
    + assert (p - q <= -1) by lia.
      destruct Hr as [[Hd0 Hr]|[Hd0 Hr]].
      * assert ((p - q) * d <= -1 * d)
          by (apply Z.mul_le_mono_nonneg_r; lia). lia.
      * assert (-1 * d <= (p - q) * d)
          by (apply Z.mul_le_mono_nonpos_r; lia). lia.
    + assert (1 <= p - q) by lia.
      destruct Hr as [[Hd0 Hr]|[Hd0 Hr]].
      * assert (1 * d <= (p - q) * d)
          by (apply Z.mul_le_mono_nonneg_r; lia). lia.
      * assert ((p - q) * d <= 1 * d)
          by (apply Z.mul_le_mono_nonpos_r; lia). lia.
  - destruct (Z.lt_trichotomy p (q + 1)) as [H|[H|H]];
      [exfalso|exact H|exfalso].
    + assert (p - q <= 0) by lia.
      destruct Hr as [[Hd0 Hr]|[Hd0 Hr]].
      * assert ((p - q) * d <= 0 * d)
          by (apply Z.mul_le_mono_nonneg_r; lia). lia.
      * assert (0 * d <= (p - q) * d)
          by (apply Z.mul_le_mono_nonpos_r; lia). lia.
    + assert (2 <= p - q) by lia.
      destruct Hr as [[Hd0 Hr]|[Hd0 Hr]].
      * assert (2 * d <= (p - q) * d)
          by (apply Z.mul_le_mono_nonneg_r; lia). lia.
      * assert ((p - q) * d <= 2 * d)
          by (apply Z.mul_le_mono_nonpos_r; lia). lia.
Qed.

(** The quotients of line 241 are binary64 numbers and [round] takes ties
    to the even neighbour: 3 of 12 is 25 per cent, 1 of 8 (12.5) is 12,
    3 of 8 (37.5) is 38, and 23 of 40, whose product with 100 is the
    number just below 57.5, is 57. *)
Example use_percentage_samples :
  use_percentage 3 12 = Ok 25 /\ use_percentage 1 8 = Ok 12 /\
  use_percentage 3 8 = Ok 38 /\ use_percentage 23 40 = Ok 57 /\
  use_percentage 0 12 = Ok 0 /\ use_percentage 12 12 = Ok 100.
Proof. vm_compute. repeat split. Qed.

(** C5, as amended: the statistics computed for a pool.  The size is the
    sum, over every range of every subnet of the pool, of stop - start + 1
    on the integer values of the bounds, in unbounded integers; the count is
    the number of leases the query for the active leases of the pool
    returns; available is the size less the count.  The use is 0, with no
    division, when the size is zero, whatever the count.  When the size is
    not zero (and below 2^128 in magnitude, the count below 2^40) the use is
    an integer nearest to the exact percentage 100 * count / size, at most
    one half away from it: it is the exactly rounded percentage whenever the
    exact percentage is not half-way between two integers, and one of the
    two neighbours when it is (the quotient and the product are rounded to
    binary64 before [round] sees them); within these bounds the computation
    of the use does not fail. *)
Theorem pool_statistics_values (conf : Env) (json : bool) (p : string)
  (w w' : world) (stat : pyobj) :
  pool_statistics conf json p w = (Ok stat, w') ->
  exists (sizes : list Z) (leases : list (dict pyval)) (pct : Z),
    rmap (range_size conf) (pool_ranges conf p) = Ok sizes /\
    get_leases conf lease_file (StateStr "active") (Some p) "ip" w
    = (Ok leases, w') /\
    let capacity := sum_Z sizes in
    let active := Z.of_nat (List.length leases) in
    get_pool_size conf p = Ok capacity /\
    stat = (if json
            then Dict [("pool", PStr p); ("size", PInt capacity);
                       ("leases", PInt active);
                       ("available", PInt (capacity - active));
                       ("percentage", PInt pct)]
            else Row [PStr p; PInt capacity; PInt active;
                      PInt (capacity - active);
                      PStr (str_of_Z pct ++ "%")%string]) /\
    use_percentage active capacity = Ok pct /\
    (capacity = 0 -> pct = 0) /\
    (capacity <> 0 -> active < 2 ^ 40 -> Z.abs capacity < 2 ^ 128 ->
     2 * Z.abs (pct * capacity - 100 * active) <= Z.abs capacity /\
     (2 * Z.abs ((100 * active) mod capacity) <> Z.abs capacity ->
      pct = exact_percentage active capacity)) /\
    (forall n, use_percentage n 0 = Ok 0) /\
    (forall n size,
       0 <= n < 2 ^ 40 -> Z.abs size < 2 ^ 128 ->
       exists use, use_percentage n size = Ok use).
Proof.
  rewrite pool_statistics_run. intros H.
  destruct (get_pool_size conf p) as [size|] eqn:Hsize; [|discriminate].
  destruct (get_leases _ _ _ _ _ w) as [[leases|e] w1]; [|discriminate].
  destruct (use_percentage _ size) as [pct|] eqn:Hpct; [|discriminate].
  injection H as <- <-.
  rewrite get_pool_size_sum in Hsize.
  apply rbind_Ok in Hsize as (sizes & Hsizes & Hsum).
  injection Hsum as <-.
  exists sizes, leases, pct. cbv zeta.
  split; [exact Hsizes|]. split; [reflexivity|]. split; [reflexivity|].
  split; [reflexivity|]. split; [exact Hpct|]. split; [|split; [|split]].
  - intros H0. rewrite H0 in Hpct. now injection Hpct.
  - intros Hne Hact Hcap.
    destruct (use_percentage_nearest (Z.of_nat (List.length leases))
                (sum_Z sizes)) as (pct' & Hpct' & Hnear);
      [lia | exact Hne | exact Hcap |].
    rewrite Hpct in Hpct'. injection Hpct' as <-.
    split; [exact Hnear|]. intros Htie.
    now apply nearest_is_exact.
  - reflexivity.
  - intros n size Hn Hsize.
    destruct (Z.eq_dec size 0) as [->|Hne]; [exists 0; reflexivity|].
    destruct (use_percentage_nearest n size Hn Hne Hsize) as (use & Hu & _).
    exists use. exact Hu.
Qed.

Lemma pool_statistics_values_witness :
  pool_statistics (sample_env two_active_journal) false "LAN" world0
  = (Ok (Row [PStr "LAN"; PInt 12; PInt 2; PInt 10; PStr "17%"]),
     ticks 2 (journal_read lease_file world0)) /\
  get_pool_size (sample_env two_active_journal) "LAN" = Ok 12 /\
  use_percentage 2 12 = Ok (exact_percentage 2 12) /\
  exact_percentage 2 12 = 17.
Proof.
  assert (H : pool_statistics (sample_env two_active_journal) false "LAN"
                world0
              = (Ok (Row [PStr "LAN"; PInt 12; PInt 2; PInt 10; PStr "17%"]),
                 ticks 2 (journal_read lease_file world0)))
    by (vm_compute; reflexivity).
  split; [exact H|].
  destruct (pool_statistics_values _ _ _ _ _ _ H)
    as (sizes & leases & pct & Hsizes & Hleases & Hsize & _ & Hpct & _
        & Hnear & _).
  vm_compute in Hsizes. injection Hsizes as <-.
  vm_compute in Hleases. injection Hleases as <-.
  change (sum_Z [11; 1]) with 12 in *.
  split; [exact Hsize|]. split; [|reflexivity].
  cbn [List.length Z.of_nat Pos.of_succ_nat Pos.succ] in Hpct, Hnear.
  rewrite Hpct. f_equal. apply Hnear.
  - discriminate.
  - reflexivity.
  - reflexivity.
  - discriminate.
Defined.

(** C5, as stated, fails: 23 active leases in a pool of 40 addresses are
    57.5 per cent exactly, which rounds to 58; the script reports 57, since
    the binary64 quotient 23 / 40 times 100 is the number just below
    57.5. *)
Lemma use_is_exact_percentage_counterexample :
  ~ use_is_exact_percentage 23 40.
Proof.
  unfold use_is_exact_percentage. vm_compute. discriminate.
Qed.

(** ** The validation of the command line *)

Lemma subset_In (a b : list string) :
  subset a b = true <-> forall x, In x a -> In x b.
Proof.
  unfold subset. rewrite forallb_forall.
  split; intros H x Hx; apply mem_string_In; auto.
Qed.

(** The state check lets a list of tokens through exactly when every token
    is a valid state and some valid state is not among the tokens. *)
Lemma set_lt_proper_subset (tokens : list string) :
  set_lt tokens lease_valid_states = true <->
  (forall t, In t tokens -> In t lease_valid_states) /\
  ~ (forall v, In v lease_valid_states -> In v tokens).
Proof.
  unfold set_lt. rewrite andb_true_iff, negb_true_iff, subset_In.
  rewrite <- not_true_iff_false, subset_In. reflexivity.
Qed.

(** C3 at the input it fails on: a command line whose states are the eight
    valid states, each of them valid, is turned away with the message for
    an invalid lease state and exit status 0, before the journal is read;
    the check of line 205 asks for a proper subset of the valid states. *)
Theorem main_rejects_every_valid_state (conf : Env)
  (leases statistics json : bool) (pool : option string) (w : world) :
  main conf (every_state_args leases statistics json pool) w
  = (Raise (SystemExit 0),
     printed
       (Text "Invalid lease state, choose from: ['all', 'active', 'free', 'expired', 'released', 'abandoned', 'reset', 'backup']")
       w) /\
  subset (arg_state (every_state_args leases statistics json pool))
         lease_valid_states = true /\
  mem_string (arg_sort (every_state_args leases statistics json pool))
             (dict_keys lease_display_fields) = true.
Proof. repeat split. Qed.

(** An unknown sort key is turned away, with the valid ones, before the
    journal is read. *)
Lemma main_rejects_unknown_sort (conf : Env) (args : Args) (w : world) :
  arg_allowed args = None ->
  mem_string (arg_sort args) (dict_keys lease_display_fields) = false ->
  main conf args w
  = (Raise (SystemExit 0),
     printed
       (Text "Invalid sort key, choose from: ['ip', 'hardware_address', 'state', 'start', 'end', 'remaining', 'pool', 'hostname']")
       w).
Proof.
  intros Hallowed Hsort. unfold main. rewrite Hallowed, Hsort. reflexivity.
Qed.

(** A state token outside the valid states is turned away, with the valid
    ones, before the journal is read. *)
Lemma main_rejects_unknown_state (conf : Env) (args : Args) (w : world)
  (t : string) :
  arg_allowed args = None ->
  mem_string (arg_sort args) (dict_keys lease_display_fields) = true ->
  In t (arg_state args) -> ~ In t lease_valid_states ->
  main conf args w
  = (Raise (SystemExit 0),
     printed
       (Text "Invalid lease state, choose from: ['all', 'active', 'free', 'expired', 'released', 'abandoned', 'reset', 'backup']")
       w).
Proof.
  intros Hallowed Hsort Ht Hbad.
  assert (Hlt : set_lt (arg_state args) lease_valid_states = false).
  { apply not_true_iff_false. rewrite set_lt_proper_subset.
    intros [Hsub _]. auto. }
  unfold main. rewrite Hallowed, Hsort, Hlt. reflexivity.
Qed.

(** Valid states that leave some valid state out, with a valid sort key,
    pass the validation: with the service configured, a lease query goes
    on to read the journal. *)
Lemma main_accepts_proper_subset (conf : Env) (args : Args) (w : world) :
  arg_allowed args = None ->
  mem_string (arg_sort args) (dict_keys lease_display_fields) = true ->
  set_lt (arg_state args) lease_valid_states = true ->
  exists_effective conf "service dhcp-server" = true ->
  arg_leases args = true ->
  exists w0,
    stdout w0 = stdout w ++
      (if is_systemd_service_running conf "isc-dhcp-server.service"
       then []
       else [Text "WARNING: DHCP server is configured but not started. Data may be stale."]) /\
    journal_reads w0 = journal_reads w /\
    clock_reads w0 = clock_reads w /\
    main conf args w
    = match get_leases conf lease_file (StateList (arg_state args))
              (arg_pool args) (arg_sort args) w0 with
      | (Ok leases, w1) =>
          (if arg_json args then print (JsonDump (map Dict leases))
           else show_leases leases) w1
      | (Raise e, w1) => (Raise e, w1)
      end.
Proof.
  intros Hallowed Hsort Hstate Hconf Hleases.
  unfold main. rewrite Hallowed, Hsort, Hstate, Hconf, Hleases.
  destruct (is_systemd_service_running conf "isc-dhcp-server.service").
  - exists w. rewrite app_nil_r. repeat split.
  - eexists (printed _ w). repeat split.
Qed.

(** A lease query for a pool that is not configured, from the command
    line: the notice is the last thing printed, after the warning of a
    stopped service if there is one; no table and no JSON follow, and the
    exit status is 0. *)
Lemma main_unknown_pool (conf : Env) (args : Args) (w : world)
  (journal : list Lease) (p : string) :
  arg_allowed args = None ->
  mem_string (arg_sort args) (dict_keys lease_display_fields) = true ->
  set_lt (arg_state args) lease_valid_states = true ->
  exists_effective conf "service dhcp-server" = true ->
  arg_leases args = true ->
  arg_pool args = Some p ->
  read_leases conf lease_file = Ok journal ->
  exists_effective conf (pool_path p) = false ->
  exists w',
    main conf args w = (Raise (SystemExit 0), w') /\
    stdout w' = stdout w ++
      (if is_systemd_service_running conf "isc-dhcp-server.service"
       then []
       else [Text "WARNING: DHCP server is configured but not started. Data may be stale."])
      ++ [no_such_pool p].
Proof.
  intros Hallowed Hsort Hstate Hconf Hleases Hp Hread Hpool.
  destruct (main_accepts_proper_subset conf args w Hallowed Hsort Hstate
              Hconf Hleases) as (w0 & Hout & _ & _ & ->).
  rewrite Hp, (get_leases_no_such_pool conf _ _ p _ w0 journal Hread Hpool).
  eexists. split; [reflexivity|]. simpl. now rewrite Hout, app_assoc.
Qed.

(** ** Sample evaluations of the library models *)

Example substring_of_samples :
  substring_of "all" "active" = false /\
  substring_of "active" "active" = true /\
  substring_of "act" "active" = true /\
  substring_of "" "active" = true /\
  substring_of "free" "active" = false.
Proof. repeat split. Qed.

Example str_timedelta_samples :
  str_timedelta (3723 * us_per_second + 250000) = "1:02:03.250000" /\
  str_timedelta (2 * us_per_day + 5 * us_per_second) = "2 days, 0:00:05" /\
  str_timedelta (us_per_day) = "1 day, 0:00:00" /\
  str_timedelta (- us_per_second) = "-1 day, 23:59:59" /\
  str_timedelta 0 = "0:00:00".
Proof. repeat split. Qed.

Example ipv4_int_samples :
  ipv4_int "10.0.0.10" = Some 167772170 /\
  ipv4_int "192.0.2.30" = Some 3221226014 /\
  ipv4_int "10.0.0.010" = None /\
  ipv4_int "192.0.2.256" = None /\
  ipv4_int "10.0.0" = None /\
  ipv4_int "10..0.1" = None.
Proof. repeat split. Qed.

Example split_on_samples :
  split_on dot "1:02:03.250000" = ["1:02:03"; "250000"] /\
  split_on dot "10.0.0.1" = ["10"; "0"; "0"; "1"] /\
  split_on dot "" = [""].
Proof. repeat split. Qed.

(** * Further properties of the script *)

(** ** What a successful lease query is made of *)

Lemma In_passing (state : state_arg) (pool : option string)
  (journal : list Lease) (r : Lease) :
  In r (passing state pool journal) <->
  In r journal /\ passes_state state r = true /\ passes_pool pool r = true.
Proof. unfold passing. rewrite !filter_In. tauto. Qed.

(** Every dictionary a lease query returns is the enrichment of a record of
    the journal that passes both filters. *)
Lemma get_leases_results {A} (config : Env) (a : A) (state : state_arg)
  (pool : option string) (sort : string) (w w' : world)
  (out : list (dict pyval)) (d : dict pyval) :
  get_leases config a state pool sort w = (Ok out, w') ->
  In d out ->
  exists journal now r,
    read_leases config lease_file = Ok journal /\
    In r journal /\ passes_state state r = true /\
    passes_pool pool r = true /\ d = enriched config now r.
Proof.
  intros (journal & Hread & _ & Hsort & _)%get_leases_Ok_inv Hd.
  apply display_sort_order in Hsort as (_ & _ & Hperm).
  apply (Permutation_in _ Hperm) in Hd.
  apply In_enrich_from in Hd as (now & r & Hr & ->).
  apply dedupe_latest in Hr as [Hr _]. apply In_passing in Hr.
  exists journal, now, r. tauto.
Qed.

(** X1: a lease query that returns has printed nothing, has read the
    journal once, at [lease_file], and has read the clock once for each
    lease it returns. *)
Theorem get_leases_effects {A : Type} (config : Env) (a : A)
  (state : state_arg) (pool : option string) (sort : string)
  (w w' : world) (out : list (dict pyval)) :
  get_leases config a state pool sort w = (Ok out, w') ->
  stdout w' = stdout w /\
  journal_reads w' = journal_reads w ++ [lease_file] /\
  clock_reads w' = (List.length out + clock_reads w)%nat.
Proof.
  intros (journal & _ & _ & Hsort & ->)%get_leases_Ok_inv.
  apply display_sort_order in Hsort as (_ & _ & Hperm).
  apply Permutation_length in Hperm.
  rewrite enrich_from_length in Hperm. rewrite Hperm.
  repeat split.
Qed.

Lemma get_leases_effects_witness :
  exists out w',
    get_leases (sample_env [lease_old; lease_new]) tt (StateList ["all"])
      None "ip" world0 = (Ok out, w') /\
    stdout w' = [] /\ journal_reads w' = [lease_file] /\
    clock_reads w' = 1%nat.
Proof.
  do 2 eexists.
  match goal with
  | |- ?P /\ _ => assert (H : P) by (vm_compute; reflexivity)
  end.
  split; [exact H|].
  exact (get_leases_effects _ _ _ _ _ _ _ _ H).
Defined.

(** X2: every lease a query for the pool [p] returns carries [p] in its
    [pool] field, and comes from a record of the journal whose [sets] hold
    [p] under [pool_key]; a record without that key is in no pool's
    listing. *)
Theorem get_leases_pool_field {A : Type} (config : Env) (a : A)
  (state : state_arg) (p sort : string) (w w' : world)
  (out : list (dict pyval)) :
  get_leases config a state (Some p) sort w = (Ok out, w') ->
  forall d, In d out ->
    dict_get "pool" d = Some (PStr p) /\
    exists journal r,
      read_leases config lease_file = Ok journal /\ In r journal /\
      dict_get pool_key (sets r) = Some p /\
      dict_get "ip" d = Some (PStr (ip r)).
Proof.
  intros Hrun d Hd.
  destruct (get_leases_results _ _ _ _ _ _ _ _ _ Hrun Hd)
    as (journal & now & r & Hread & Hr & _ & Hpool & ->).
  cbn [passes_pool] in Hpool. unfold in_pool in Hpool.
  destruct (dict_get pool_key (sets r)) as [v|] eqn:E; [|discriminate].
  apply String.eqb_eq in Hpool. subst v.
  cbn [enriched dict_get String.eqb Ascii.eqb Bool.eqb].
  unfold pool_text. rewrite E. split; [reflexivity|].
  exists journal, r. auto.
Qed.

Lemma get_leases_pool_field_witness :
  exists out w',
    get_leases (sample_env [lease_old; lease_new]) tt (StateList ["all"])
      (Some "LAN") "ip" world0 = (Ok out, w') /\
    forall d, In d out -> dict_get "pool" d = Some (PStr "LAN").
Proof.
  do 2 eexists.
  match goal with
  | |- ?P /\ _ => assert (H : P) by (vm_compute; reflexivity)
  end.
  split; [exact H|].
  intros d Hd. exact (proj1 (get_leases_pool_field _ _ _ _ _ _ _ _ H d Hd)).
Defined.

(** X3: when the requested states are a list without [all], the [state]
    field of every lease a query returns is one of the requested states. *)
Theorem get_leases_state_field {A : Type} (config : Env) (a : A)
  (tokens : list string) (pool : option string) (sort : string)
  (w w' : world) (out : list (dict pyval)) :
  ~ In "all" tokens ->
  get_leases config a (StateList tokens) pool sort w = (Ok out, w') ->
  forall d, In d out ->
    exists s, dict_get "state" d = Some (PStr s) /\ In s tokens.
Proof.
  intros Hall Hrun d Hd.
  destruct (get_leases_results _ _ _ _ _ _ _ _ _ Hrun Hd)
    as (journal & now & r & _ & _ & Hstate & _ & ->).
  exists (binding_state r). split; [reflexivity|].
  unfold passes_state in Hstate. cbn [py_in] in Hstate.
  apply orb_true_iff in Hstate as [H|H]; apply mem_string_In in H;
    [contradiction | exact H].
Qed.

Lemma get_leases_state_field_witness :
  exists out w',
    get_leases (sample_env [lease_old; lease_new]) tt (StateList ["free"])
      None "ip" world0 = (Ok out, w') /\
    forall d, In d out ->
      exists s, dict_get "state" d = Some (PStr s) /\ In s ["free"].
Proof.
  do 2 eexists.
  match goal with
  | |- ?P /\ _ => assert (H : P) by (vm_compute; reflexivity)
  end.
  split; [exact H|].
  assert (Hall : ~ In "all" ["free"])
    by (intros [E|[]]; discriminate E).
  exact (get_leases_state_field _ _ _ _ _ _ _ _ Hall H).
Defined.

Lemma NoDup_map_injective {A B} (f : A -> B) (l : list A) :
  (forall x y, f x = f y -> x = y) -> NoDup l -> NoDup (map f l).
Proof.
  intros Hinj. induction 1 as [|x l Hx Hl IH]; simpl; constructor; auto.
  intros (y & Hy & Hin)%in_map_iff. apply Hinj in Hy. now subst.
Qed.

(** X4: a lease query returns no address twice, and returns exactly the
    addresses that have a record in the journal passing both filters. *)
Theorem get_leases_unique_addresses {A : Type} (config : Env) (a : A)
  (state : state_arg) (pool : option string) (sort : string)
  (w w' : world) (out : list (dict pyval)) :
  get_leases config a state pool sort w = (Ok out, w') ->
  NoDup (map (dict_get "ip") out) /\
  exists journal,
    read_leases config lease_file = Ok journal /\
    forall x, In (Some (PStr x)) (map (dict_get "ip") out) <->
              exists r, In r journal /\ passes_state state r = true /\
                        passes_pool pool r = true /\ ip r = x.
Proof.
  intros (journal & Hread & _ & Hsort & _)%get_leases_Ok_inv.
  apply display_sort_order in Hsort as (_ & _ & Hperm).
  pose proof (Permutation_map (dict_get "ip") Hperm) as Hips.
  rewrite map_ip_enrich_from in Hips.
  destruct (dedupe_addresses (passing state pool journal)) as [Hnd Haddr].
  assert (Hmap : map (fun x => Some (PStr (ip x)))
                     (dedupe (passing state pool journal))
                 = map (fun x => Some (PStr x))
                       (map ip (dedupe (passing state pool journal))))
    by (now rewrite map_map).
  rewrite Hmap in Hips. split.
  - apply (Permutation_NoDup (Permutation_sym Hips)).
    apply NoDup_map_injective; [congruence | exact Hnd].
  - exists journal. split; [exact Hread|]. intros x. split.
    + intros Hx. apply (Permutation_in _ Hips) in Hx.
      apply in_map_iff in Hx as (y & [= ->] & Hy).
      apply Haddr, in_map_iff in Hy as (r & <- & Hr).
      apply In_passing in Hr. exists r. tauto.
    + intros (r & Hr & Hs & Hp & <-).
      apply (Permutation_in _ (Permutation_sym Hips)).
      apply (in_map (fun x => Some (PStr x))), Haddr, (in_map ip).
      apply In_passing. tauto.
Qed.

Lemma get_leases_unique_addresses_witness :
  exists out w',
    get_leases (sample_env [lease_old; lease_new]) tt (StateList ["all"])
      None "ip" world0 = (Ok out, w') /\
    NoDup (map (dict_get "ip") out).
Proof.
  do 2 eexists.
  match goal with
  | |- ?P /\ _ => assert (H : P) by (vm_compute; reflexivity)
  end.
  split; [exact H|].
  exact (proj1 (get_leases_unique_addresses _ _ _ _ _ _ _ _ H)).
Defined.

(** ** The resolver on journals without repeated addresses *)

Lemma NoDup_map_eq {A B} (f : A -> B) (l : list A) (x y : A) :
  NoDup (map f l) -> In x l -> In y l -> f x = f y -> x = y.
Proof.
  induction l as [|z l IH]; simpl; [tauto|].
  intros Hnd Hx Hy E. inversion Hnd as [|? ? Hz Hnd']; subst.
  destruct Hx as [->|Hx], Hy as [->|Hy]; auto.
  - exfalso. apply Hz. rewrite E. now apply in_map.
  - exfalso. apply Hz. rewrite <- E. now apply in_map.
Qed.

(** X5: the resolver never adds records: it keeps at most as many as it
    is given, and when no address occurs twice in its input it keeps every
    record (its output is a rearrangement of the input). *)
Theorem dedupe_keeps_distinct (leases : list Lease) :
  (List.length (dedupe leases) <= List.length leases)%nat /\
  (NoDup (map ip leases) -> Permutation (dedupe leases) leases).
Proof.
  destruct (dedupe_addresses leases) as [Hnd Haddr].
  assert (Hnd' : NoDup (dedupe leases)) by (eapply NoDup_map_inv; eauto).
  split.
  - apply NoDup_incl_length; [exact Hnd'|].
    intros r Hr. now apply dedupe_latest in Hr.
  - intros Hl. apply NoDup_Permutation;
      [exact Hnd' | eapply NoDup_map_inv; eauto |].
    intros r. split; [intros Hr; now apply dedupe_latest in Hr|].
    intros Hr.
    assert (Hip : In (ip r) (map ip (dedupe leases)))
      by (apply Haddr; now apply in_map).
    apply in_map_iff in Hip as (r' & E & Hr').
    assert (r' = r); [|now subst].
    apply (NoDup_map_eq ip leases); auto.
    now apply dedupe_latest in Hr'.
Qed.

Lemma dedupe_keeps_distinct_witness :
  Permutation
    (dedupe [sample_lease "192.0.2.8" 20 "free" None; lease_old])
    [sample_lease "192.0.2.8" 20 "free" None; lease_old].
Proof.
  apply (proj2 (dedupe_keeps_distinct
                  [sample_lease "192.0.2.8" 20 "free" None; lease_old])).
  repeat constructor; simpl; intuition discriminate.
Defined.

(** ** The dictionary of a lease and its table row *)

(** X6: the dictionary the enricher builds always has the same twelve
    keys, in the same order; each of the four pass-through properties holds
    the value of the lease's [data] under that name, and the empty string
    when [data] has no such name. *)
Theorem get_lease_data_keys (env : Env) (lease : Lease) (w : world) :
  exists d,
    get_lease_data env lease w = (Ok d, tick w) /\
    dict_keys d = lease_data_keys /\
    forall prop, In prop ["tstp"; "tsfp"; "atsfp"; "cltt"] ->
      dict_get prop d
      = Some (PStr (match dict_get prop (data lease) with
                    | Some v => v
                    | None => EmptyString
                    end)).
Proof.
  eexists. split; [apply get_lease_data_run|]. split; [reflexivity|].
  intros prop Hprop. simpl in Hprop.
  decompose [or] Hprop; subst; try contradiction; reflexivity.
Qed.

Lemma get_lease_data_keys_witness :
  exists d,
    get_lease_data (sample_env []) lease_old world0 = (Ok d, tick world0) /\
    dict_get "cltt" d = Some (PStr "").
Proof.
  destruct (get_lease_data_keys (sample_env []) lease_old world0)
    as (d & Hrun & _ & Hprops).
  exists d. split; [exact Hrun|].
  apply (Hprops "cltt"). simpl. auto.
Defined.

Lemma show_leases_rows (leases : list (dict pyval)) :
  (forall d, In d leases ->
     forall k, In k (dict_keys lease_display_fields) ->
               dict_get k d <> None) ->
  rmap (fun l =>
          rbind (rmap (fun k => getitem l k) (dict_keys lease_display_fields))
                (fun lease_list_params => Ok (Row lease_list_params)))
       leases
  = Ok (map display_row leases).
Proof.
  intros H. apply rmap_Ok_map. intros d Hd.
  unfold display_row.
  rewrite (rmap_Ok_map (fun k => getitem d k)
             (fun k => match dict_get k d with
                       | Some v => v
                       | None => PNone
                       end)); [reflexivity|].
  intros k Hk. unfold getitem. specialize (H d Hd k Hk).
  now destruct (dict_get k d).
Qed.

(** X7: [show_leases] on what a lease query returned never fails on a
    missing field: it prints one table, under the eight headings, with one
    row for each lease in the order returned, every row holding the values
    of the eight display fields. *)
Theorem show_leases_after_get_leases {A : Type} (config : Env) (a : A)
  (state : state_arg) (pool : option string) (sort : string)
  (w w' : world) (out : list (dict pyval)) :
  get_leases config a state pool sort w = (Ok out, w') ->
  show_leases out w'
  = (Ok tt,
     printed
       (Table ["IP address"; "Hardware address"; "State"; "Lease start";
               "Lease expiration"; "Remaining"; "Pool"; "Hostname"]
              (map display_row out)) w') /\
  Forall (fun row => exists cells,
                       row = Row cells /\ List.length cells = 8%nat)
         (map display_row out).
Proof.
  intros Hrun. split.
  - unfold show_leases, bind, lift. rewrite show_leases_rows; [reflexivity|].
    intros d Hd k Hk.
    destruct (get_leases_results _ _ _ _ _ _ _ _ _ Hrun Hd)
      as (_ & now & r & _ & _ & _ & _ & ->).
    simpl in Hk. decompose [or] Hk; subst; try contradiction;
      cbn [enriched dict_get String.eqb Ascii.eqb Bool.eqb]; discriminate.
  - apply Forall_forall. intros row (d & <- & _)%in_map_iff.
    eexists. split; [reflexivity|]. reflexivity.
Qed.

Lemma show_leases_after_get_leases_witness :
  exists out w',
    get_leases (sample_env [lease_old]) tt (StateList ["all"]) None "ip"
      world0 = (Ok out, w') /\
    show_leases out w'
    = (Ok tt,
       printed
         (Table ["IP address"; "Hardware address"; "State"; "Lease start";
                 "Lease expiration"; "Remaining"; "Pool"; "Hostname"]
            [Row [PStr "192.0.2.7"; PStr "00:53:00:00:00:01"; PStr "active";
                  PStr "3600"; PStr ""; PStr ""; PStr "LAN"; PStr "host"]])
         w').
Proof.
  do 2 eexists.
  match goal with
  | |- ?P /\ _ => assert (H : P) by (vm_compute; reflexivity)
  end.
  split; [exact H|].
  exact (proj1 (show_leases_after_get_leases _ _ _ _ _ _ _ _ H)).
Defined.

(** ** A journal that cannot be read *)

(** X8: when the journal cannot be read, a lease query fails with the
    parser's exception at once: nothing is printed, not even the notice of
    an unknown pool, and the clock is not read; unless the exception is an
    exit request, the run ends with status 1. *)
Theorem get_leases_unreadable_journal {A : Type} (config : Env) (a : A)
  (state : state_arg) (pool : option string) (sort : string) (w : world)
  (e : exn) :
  read_leases config lease_file = Raise e ->
  get_leases config a state pool sort w
  = (Raise e, journal_read lease_file w) /\
  stdout (snd (get_leases config a state pool sort w)) = stdout w /\
  clock_reads (snd (get_leases config a state pool sort w)) = clock_reads w /\
  ((forall c, e <> SystemExit c) ->
   exit_status (fst (get_leases config a state pool sort w)) = 1).
Proof.
  intros Hread.
  assert (Hrun : get_leases config a state pool sort w
                 = (Raise e, journal_read lease_file w))
    by (now rewrite get_leases_run, select_leases_run, Hread).
  rewrite Hrun. repeat split.
  intros He. destruct e; simpl; auto. now destruct (He code).
Qed.

Lemma get_leases_unreadable_journal_witness :
  get_leases unreadable_env tt (StateList ["active"]) (Some "GUEST") "ip"
    world0
  = (Raise OSError, journal_read lease_file world0).
Proof.
  exact (proj1 (get_leases_unreadable_journal unreadable_env tt
                  (StateList ["active"]) (Some "GUEST") "ip" world0 OSError
                  eq_refl)).
Defined.

(** ** The state the statistics ask for *)

(** X9: the statistics pass the string ['active'] as the requested states,
    so the state filter tests containment in that string: among the binding
    states the daemon writes, exactly [active] passes, and so the leases
    counted for a pool are its active ones; a record with an empty binding
    state would pass as well. *)
Theorem statistics_count_active (leases : list Lease) :
  (forall x, In (binding_state x) binding_states ->
     (In x (filter_by_state (StateStr "active") leases) <->
      In x leases /\ binding_state x = "active")) /\
  (forall x, binding_state x = "" -> In x leases ->
     In x (filter_by_state (StateStr "active") leases)).
Proof.
  assert (Hf : filter_by_state (StateStr "active") leases
               = filter (fun x => substring_of (binding_state x) "active")
                        leases) by reflexivity.
  rewrite Hf. split.
  - intros x Hx. rewrite filter_In. simpl in Hx.
    decompose [or] Hx; try contradiction;
      match goal with H : _ = binding_state x |- _ => rewrite <- H end;
      vm_compute; intuition discriminate.
  - intros x Hx Hin. apply filter_In. rewrite Hx. auto.
Qed.

Lemma statistics_count_active_witness :
  In lease_old (filter_by_state (StateStr "active") [lease_old; lease_new])
  /\ ~ In lease_new
        (filter_by_state (StateStr "active") [lease_old; lease_new]).
Proof.
  split.
  - apply (proj1 (statistics_count_active [lease_old; lease_new])).
    + simpl; auto.
    + split; [simpl; auto | reflexivity].
  - intros H.
    apply (proj1 (statistics_count_active [lease_old; lease_new])) in H.
    + destruct H as [_ H]. discriminate H.
    + simpl; auto.
Defined.

(** ** When the size of a pool can be computed *)

Lemma rmap_Ok_iff {A B} (f : A -> result B) (l : list A) :
  (exists ys, rmap f l = Ok ys) <-> forall x, In x l -> exists y, f x = Ok y.
Proof.
  induction l as [|x l IH]; simpl.
  - split; [intros _ x [] | eauto].
  - split.
    + intros [ys H]. apply rbind_Ok in H as (y & Hy & H).
      apply rbind_Ok in H as (ys' & Hys & _).
      intros z [<-|Hz]; [eauto|]. apply IH; eauto.
    + intros H. destruct (H x (or_introl eq_refl)) as [y Hy].
      destruct (proj2 IH (fun z Hz => H z (or_intror Hz))) as [ys Hys].
      rewrite Hy, Hys. simpl. eauto.
Qed.

Lemma rmap_Raise {A B} (f : A -> result B) (l : list A) (e : exn) :
  rmap f l = Raise e -> exists x, In x l /\ f x = Raise e.
Proof.
  induction l as [|x l IH]; simpl; [discriminate|].
  destruct (f x) as [y|e'] eqn:Ex; simpl.
  - destruct (rmap f l) as [ys|e'] eqn:El; simpl; [discriminate|].
    intros [= ->]. destruct (IH eq_refl) as (z & Hz & Hfz). eauto.
  - intros [= ->]. eauto.
Qed.

Lemma rmap_Forall2 {A B} (f : A -> result B) (l : list A) (ys : list B) :
  rmap f l = Ok ys -> Forall2 (fun x y => f x = Ok y) l ys.
Proof.
  revert ys; induction l as [|x l IH]; simpl; intros ys H.
  - injection H as <-. constructor.
  - apply rbind_Ok in H as (y & Hy & H).
    apply rbind_Ok in H as (ys' & Hys & H). injection H as <-.
    constructor; auto.
Qed.

Lemma ip_address_raises (config : Env) (a : pyval) (e : exn) :
  ip_address config a = Raise e -> e = ValueError.
Proof.
  unfold ip_address. destruct a as [s|z| |]; try congruence.
  - destruct (ipv4_int s); [discriminate|].
    destruct (ipv6_int config s); congruence.
  - destruct ((0 <=? z) && (z <? 2 ^ 128)); congruence.
Qed.

Lemma range_size_Ok (config : Env) (b : pyval * pyval) (n : Z) :
  range_size config b = Ok n <->
  exists lo hi, ip_address config (fst b) = Ok lo /\
                ip_address config (snd b) = Ok hi /\ n = hi - lo + 1.
Proof.
  unfold range_size. split.
  - intros H. apply rbind_Ok in H as (hi & Hhi & H).
    apply rbind_Ok in H as (lo & Hlo & H). injection H as <-. eauto.
  - intros (lo & hi & Hlo & Hhi & ->). now rewrite Hhi, Hlo.
Qed.

(** X10: the size of a pool is computed exactly when both bounds of every
    range of the pool are addresses; when a bound is missing from the
    configuration or is not an address, the computation fails, and always
    with [ValueError]. *)
Theorem get_pool_size_defined (config : Env) (pool : string) :
  ((exists size, get_pool_size config pool = Ok size) <->
   forall b, In b (pool_ranges config pool) ->
     exists lo hi, ip_address config (fst b) = Ok lo /\
                   ip_address config (snd b) = Ok hi) /\
  (forall e, get_pool_size config pool = Raise e -> e = ValueError) /\
  (forall b, In b (pool_ranges config pool) ->
     fst b = PNone \/ snd b = PNone ->
     get_pool_size config pool = Raise ValueError).
Proof.
  rewrite get_pool_size_sum.
  assert (Hraise : forall e,
            rbind (rmap (range_size config) (pool_ranges config pool))
                  (fun sizes => Ok (sum_Z sizes)) = Raise e ->
            e = ValueError).
  { intros e H.
    destruct (rmap _ _) as [sizes|e'] eqn:E; [discriminate|].
    injection H as ->. apply rmap_Raise in E as (b & _ & Hb).
    unfold range_size in Hb.
    destruct (ip_address config (snd b)) eqn:Hhi; simpl in Hb.
    - destruct (ip_address config (fst b)) eqn:Hlo; [discriminate|].
      injection Hb as ->. eapply ip_address_raises; eauto.
    - injection Hb as ->. eapply ip_address_raises; eauto. }
  assert (Hdef : (exists size,
                    rbind (rmap (range_size config) (pool_ranges config pool))
                          (fun sizes => Ok (sum_Z sizes)) = Ok size) <->
                 forall b, In b (pool_ranges config pool) ->
                   exists lo hi, ip_address config (fst b) = Ok lo /\
                                 ip_address config (snd b) = Ok hi).
  { split.
    - intros [size H]. apply rbind_Ok in H as (sizes & Hs & _).
      intros b Hb.
      destruct (proj1 (rmap_Ok_iff _ _) (ex_intro _ sizes Hs) b Hb)
        as [n Hn].
      apply range_size_Ok in Hn as (lo & hi & ? & ? & _). eauto.
    - intros H.
      destruct (proj2 (rmap_Ok_iff (range_size config)
                         (pool_ranges config pool))) as [sizes Hs].
      + intros b Hb. destruct (H b Hb) as (lo & hi & Hlo & Hhi).
        exists (hi - lo + 1). apply range_size_Ok. eauto.
      + rewrite Hs. simpl. eauto. }
  split; [exact Hdef|]. split; [exact Hraise|].
  intros b Hb Hnone.
  destruct (rbind _ _) as [size|e] eqn:E.
  - destruct (proj1 Hdef (ex_intro _ size eq_refl) b Hb)
      as (lo & hi & Hlo & Hhi).
    destruct Hnone as [H|H]; rewrite H in *; discriminate.
  - now rewrite (Hraise e eq_refl).
Qed.

Lemma get_pool_size_defined_witness :
  get_pool_size (sample_env []) "GUEST" = Ok 0 /\
  exists size, get_pool_size (sample_env []) "LAN" = Ok size.
Proof.
  split; [reflexivity|].
  apply (proj1 (get_pool_size_defined (sample_env []) "LAN")).
  intros b Hb. vm_compute in Hb.
  decompose [or] Hb; try contradiction; subst b; vm_compute; eauto.
Defined.

Lemma sum_Z_lower (sizes : list Z) :
  Forall (fun n => 1 <= n) sizes ->
  Z.of_nat (List.length sizes) <= sum_Z sizes.
Proof.
  induction 1 as [|n l Hn Hl IH]; simpl sum_Z; [simpl; lia|].
  rewrite length_cons, Nat2Z.inj_succ. lia.
Qed.

(** X11: a pool whose ranges all have their start at or before their stop
    has at least one address for each range; the bounds are not checked
    for their order, and a range written backwards counts negatively (the
    one range from 192.0.2.20 to 192.0.2.10 gives the size -9). *)
Theorem get_pool_size_lower_bound (config : Env) (pool : string)
  (size : Z) :
  get_pool_size config pool = Ok size ->
  ((forall b lo hi, In b (pool_ranges config pool) ->
      ip_address config (fst b) = Ok lo ->
      ip_address config (snd b) = Ok hi -> lo <= hi) ->
   Z.of_nat (List.length (pool_ranges config pool)) <= size) /\
  (pool_ranges config pool = [] -> size = 0) /\
  get_pool_size reversed_range_env "LAN" = Ok (-9).
Proof.
  rewrite get_pool_size_sum. intros H.
  apply rbind_Ok in H as (sizes & Hs & [= <-]).
  split; [|split; [|reflexivity]].
  - intros Hord. apply rmap_Forall2 in Hs.
    rewrite (Forall2_length Hs). apply sum_Z_lower.
    induction Hs as [|b n l sizes Hb Hs IH]; constructor.
    + apply range_size_Ok in Hb as (lo & hi & Hlo & Hhi & ->).
      specialize (Hord b lo hi (or_introl eq_refl) Hlo Hhi). lia.
    + apply IH. intros b' lo hi Hb'. apply Hord. now right.
  - intros Hnil. rewrite Hnil in Hs. now injection Hs as <-.
Qed.

Lemma get_pool_size_lower_bound_witness :
  2 <= 12 /\ get_pool_size (sample_env []) "LAN" = Ok 12.
Proof.
  assert (H : get_pool_size (sample_env []) "LAN" = Ok 12) by reflexivity.
  split; [|exact H].
  apply (proj1 (get_pool_size_lower_bound (sample_env []) "LAN" 12 H)).
  intros b lo hi Hb. vm_compute in Hb.
  decompose [or] Hb; try contradiction; subst b; vm_compute;
    intros [= <-] [= <-]; discriminate.
Defined.

(** ** The statistics of the command line *)

(** X12: the statistics of a pool that is not configured: once the size is
    computed the count of the leases ends the run through the notice of the
    unknown pool and [exit(0)], so no row is produced for that pool. *)
Theorem pool_statistics_unknown_pool (conf : Env) (json : bool)
  (p : string) (w : world) (size : Z) (journal : list Lease) :
  get_pool_size conf p = Ok size ->
  read_leases conf lease_file = Ok journal ->
  exists_effective conf (pool_path p) = false ->
  pool_statistics conf json p w
  = (Raise (SystemExit 0),
     printed (no_such_pool p) (journal_read lease_file w)).
Proof.
  intros Hsize Hread Hpool.
  rewrite pool_statistics_run, Hsize.
  now rewrite (get_leases_no_such_pool conf _ _ p _ w journal Hread Hpool).
Qed.

Lemma pool_statistics_unknown_pool_witness :
  pool_statistics (sample_env [lease_old]) false "GUEST" world0
  = (Raise (SystemExit 0),
     printed (no_such_pool "GUEST") (journal_read lease_file world0)).
Proof.
  exact (pool_statistics_unknown_pool (sample_env [lease_old]) false
           "GUEST" world0 0 [lease_old] eq_refl eq_refl eq_refl).
Defined.

Lemma main_checked (conf : Env) (args : Args) (w : world) :
  passes_checks conf args = true ->
  main conf args w = after_checks conf args w.
Proof.
  unfold passes_checks. rewrite !andb_true_iff, negb_true_iff.
  intros [[[Hallowed Hsort] Hstate] Hconf].
  unfold main, after_checks, statistics_pools. cbv zeta.
  rewrite Hsort, Hstate, Hconf, Hallowed.
  destruct (arg_allowed args) as [[|c s]|]; [|discriminate|]; reflexivity.
Qed.

Lemma main_unchecked (conf : Env) (args : Args) (w : world) :
  passes_checks conf args = false ->
  exists c o, main conf args w = (Raise (SystemExit c), printed o w) /\
              (c = 0 \/ c = 1).
Proof.
  unfold passes_checks, main. cbv zeta.
  set (b1 := mem_string (arg_sort args) (dict_keys lease_display_fields)).
  set (b2 := set_lt (arg_state args) lease_valid_states).
  set (b3 := exists_effective conf "service dhcp-server").
  intros H.
  assert (Hrest : truthy (arg_allowed args) = false ->
                  b1 && b2 && b3 = false)
    by (intros E; now rewrite E in H).
  clear H.
  destruct (arg_allowed args) as [s|] eqn:Hallowed.
  - destruct (String.eqb s "sort") eqn:E1;
      [do 2 eexists; split; [reflexivity | auto]|].
    destruct (String.eqb s "state") eqn:E2;
      [do 2 eexists; split; [reflexivity | auto]|].
    destruct s as [|c s]; [|do 2 eexists; split; [reflexivity | auto]].
    specialize (Hrest eq_refl).
    destruct b1; [|do 2 eexists; split; [reflexivity | auto]].
    destruct b2; [|do 2 eexists; split; [reflexivity | auto]].
    destruct b3; [discriminate Hrest|].
    do 2 eexists; split; [reflexivity | auto].
  - specialize (Hrest eq_refl).
    destruct b1; [|do 2 eexists; split; [reflexivity | auto]].
    destruct b2; [|do 2 eexists; split; [reflexivity | auto]].
    destruct b3; [discriminate Hrest|].
    do 2 eexists; split; [reflexivity | auto].
Qed.

(** X13: the checks of the command line are a gate in front of all the
    work.  A command line that fails them ends the run by an exit with
    status 0 or 1 after exactly one thing was printed (a list of allowed
    values, the usage, or the reason), with the journal and the clock
    untouched; and whenever a run has read the journal or the clock, the
    command line had passed the checks and asked for leases or
    statistics. *)
Theorem main_reads_only_after_checks (conf : Env) (args : Args)
  (w : world) :
  (passes_checks conf args = false ->
   exists c o, main conf args w = (Raise (SystemExit c), printed o w) /\
               (c = 0 \/ c = 1)) /\
  (journal_reads (snd (main conf args w)) <> journal_reads w \/
   clock_reads (snd (main conf args w)) <> clock_reads w ->
   passes_checks conf args = true /\
   (arg_leases args = true \/ arg_statistics args = true)).
Proof.
  split; [apply main_unchecked|].
  intros Hread. destruct (passes_checks conf args) eqn:Hchecks.
  - split; [reflexivity|].
    rewrite (main_checked _ _ _ Hchecks) in Hread.
    destruct (arg_leases args) eqn:Hl; [auto|].
    destruct (arg_statistics args) eqn:Hs; [auto|]. exfalso.
    unfold after_checks in Hread. rewrite Hl, Hs in Hread.
    destruct (is_systemd_service_running conf "isc-dhcp-server.service");
      simpl in Hread; tauto.
  - exfalso.
    destruct (main_unchecked conf args w Hchecks) as (c & o & Hrun & _).
    rewrite Hrun in Hread. simpl in Hread. tauto.
Qed.

Lemma main_reads_only_after_checks_witness :
  exists c o,
    main (sample_env [lease_old]) unknown_sort_args world0
    = (Raise (SystemExit c), printed o world0).
Proof.
  destruct (proj1 (main_reads_only_after_checks (sample_env [lease_old])
                     unknown_sort_args world0) eq_refl)
    as (c & o & H & _).
  exists c, o. exact H.
Defined.

(** The row of a pool: its size, the number of leases the query for the
    active leases of the pool returned, which is the number of addresses
    with a passing record in the journal, and the use computed from the
    two. *)
Lemma pool_statistics_Ok_inv (conf : Env) (json : bool) (p : string)
  (w w' : world) (stat : pyobj) :
  pool_statistics conf json p w = (Ok stat, w') ->
  (exists journal leases size pct,
     read_leases conf lease_file = Ok journal /\
     get_leases conf lease_file (StateStr "active") (Some p) "ip" w
     = (Ok leases, w') /\
     List.length leases
     = List.length (dedupe (passing (StateStr "active") (Some p) journal)) /\
     get_pool_size conf p = Ok size /\
     use_percentage (Z.of_nat (List.length leases)) size = Ok pct /\
     stat = pool_stats json p size (Z.of_nat (List.length leases)) pct) /\
  stdout w' = stdout w /\
  journal_reads w' = journal_reads w ++ [lease_file].
Proof.
  rewrite pool_statistics_run.
  destruct (get_pool_size conf p) as [size|]; [|discriminate].
  destruct (get_leases _ _ _ _ _ w) as [[leases|e] w1] eqn:Hrun;
    [|discriminate].
  destruct (use_percentage _ size) as [pct|] eqn:Hpct; [|discriminate].
  intros [= <- <-].
  apply get_leases_Ok_inv in Hrun as (journal & Hread & _ & Hsort & ->).
  split; [|split; reflexivity].
  exists journal, leases, size, pct.
  apply display_sort_order in Hsort as (_ & _ & Hperm).
  apply Permutation_length in Hperm. rewrite enrich_from_length in Hperm.
  repeat split; auto.
Qed.

Lemma mapM_pool_statistics (conf : Env) (json : bool) (pools : list string)
  (w w' : world) (stats : list pyobj) :
  mapM (pool_statistics conf json) pools w = (Ok stats, w') ->
  stdout w' = stdout w /\
  journal_reads w'
  = journal_reads w ++ repeat lease_file (List.length pools) /\
  Forall2 (fun p stat =>
             exists journal leases wa wb size pct,
               read_leases conf lease_file = Ok journal /\
               get_leases conf lease_file (StateStr "active") (Some p) "ip"
                 wa = (Ok leases, wb) /\
               List.length leases
               = List.length
                   (dedupe (passing (StateStr "active") (Some p) journal)) /\
               get_pool_size conf p = Ok size /\
               use_percentage (Z.of_nat (List.length leases)) size
               = Ok pct /\
               stat = pool_stats json p size
                        (Z.of_nat (List.length leases)) pct) pools stats.
Proof.
  revert w stats; induction pools as [|p pools IH]; intros w stats.
  - intros [= <- <-]. rewrite app_nil_r. repeat split. constructor.
  - cbn [mapM]. unfold bind at 1.
    destruct (pool_statistics conf json p w) as [[stat|e] w1] eqn:Hp;
      [|discriminate].
    unfold bind at 1.
    destruct (mapM _ pools w1) as [[stats'|e] w2] eqn:Hps; [|discriminate].
    intros [= <- <-].
    apply pool_statistics_Ok_inv in Hp as (Hstat & Hout & Hj).
    destruct (IH _ _ Hps) as (Hout' & Hj' & Hall).
    split; [congruence|]. split.
    + rewrite Hj', Hj, <- app_assoc. reflexivity.
    + constructor; [|exact Hall].
      destruct Hstat as (journal & leases & size & pct & H).
      exists journal, leases, w, w1, size, pct. exact H.
Qed.

(** X14: a statistics run that succeeds prints, after the warning of a
    stopped service if there is one, exactly one table (or one JSON list)
    with one row for each pool it ran over, in the order of the pools; the
    row of a pool names the pool and holds its size, the count of its
    leases, their difference and the use.  The count is the length of what
    the query for the active leases of that pool returned, which is the
    number of addresses of the journal with a record that is active and of
    that pool.  The journal is read anew for every pool. *)
Theorem main_statistics_rows (conf : Env) (args : Args) (w w' : world) :
  passes_checks conf args = true ->
  arg_leases args = false ->
  arg_statistics args = true ->
  main conf args w = (Ok tt, w') ->
  exists stats,
    stdout w'
    = stdout (warned conf w) ++ [statistics_output (arg_json args) stats] /\
    journal_reads w'
    = journal_reads w
      ++ repeat lease_file (List.length (statistics_pools conf args)) /\
    Forall2 (fun p stat =>
               exists journal leases wa wb size pct,
                 read_leases conf lease_file = Ok journal /\
                 get_leases conf lease_file (StateStr "active") (Some p) "ip"
                   wa = (Ok leases, wb) /\
                 List.length leases
                 = List.length
                     (dedupe (passing (StateStr "active") (Some p)
                                journal)) /\
                 get_pool_size conf p = Ok size /\
                 use_percentage (Z.of_nat (List.length leases)) size
                 = Ok pct /\
                 stat = pool_stats (arg_json args) p size
                          (Z.of_nat (List.length leases)) pct)
            (statistics_pools conf args) stats.
Proof.
  intros Hchecks Hl Hs. rewrite (main_checked _ _ _ Hchecks).
  unfold after_checks. rewrite Hl, Hs.
  assert (Hw : forall k : M unit,
            (when (negb (is_systemd_service_running conf
                           "isc-dhcp-server.service"))
                  (print (Text "WARNING: DHCP server is configured but not started. Data may be stale.")) ;;; k) w
            = k (warned conf w)).
  { intros k. unfold warned, bind, when.
    now destruct (is_systemd_service_running conf _). }
  rewrite Hw. unfold bind.
  destruct (mapM _ _ (warned conf w)) as [[stats|e] w1] eqn:Hm;
    [|discriminate].
  apply mapM_pool_statistics in Hm as (Hout & Hj & Hall).
  assert (Hjw : journal_reads (warned conf w) = journal_reads w)
    by (unfold warned; now destruct (is_systemd_service_running conf _)).
  intros H. exists stats.
  assert (Hw' : w' = printed (statistics_output (arg_json args) stats) w1)
    by (unfold statistics_output; destruct (arg_json args);
        now injection H as <-).
  subst w'. simpl. rewrite Hout, Hj, Hjw. auto.
Qed.

Lemma main_statistics_rows_witness :
  exists w',
    main (sample_env [lease_old]) statistics_args world0 = (Ok tt, w') /\
    stdout w'
    = [statistics_output false
         [Row [PStr "LAN"; PInt 12; PInt 1; PInt 11; PStr "8%"]]] /\
    journal_reads w' = [lease_file].
Proof.
  eexists.
  match goal with
  | |- ?P /\ _ => assert (H : P) by (vm_compute; reflexivity)
  end.
  destruct (main_statistics_rows (sample_env [lease_old]) statistics_args
              world0 _ eq_refl eq_refl eq_refl H)
    as (stats & Hout & Hj & Hall).
  split; [exact H|]. split; [|exact Hj].
  change (statistics_pools (sample_env [lease_old]) statistics_args)
    with ["LAN"] in Hall.
  inversion Hall as [|p stat ps sts Hstat Hrest]; subst.
  inversion Hrest; subst.
  destruct Hstat
    as (journal & leases & wa & wb & size & pct & Hread & _ & Hlen & Hsize
        & Hpct & ->).
  injection Hread as <-. rewrite Hlen in *.
  vm_compute in Hsize. injection Hsize as <-.
  vm_compute in Hpct. injection Hpct as <-.
  exact Hout.
Defined.

(** X15: a pool without active leases is used to 0 per cent, whatever its
    size, and the use never fails by a division by zero, whatever the count
    and the size. *)
Theorem use_percentage_no_leases :
  (forall size, use_percentage 0 size = Ok 0) /\
  (forall leases size, use_percentage leases size <> Raise ZeroDivisionError).
Proof.
  split.
  - intros size. unfold use_percentage, py_truediv.
    destruct (size =? 0) eqn:E; [reflexivity|]. simpl negb. cbv iota.
    destruct size as [|p|p]; [discriminate E| |]; reflexivity.
  - intros leases size. unfold use_percentage, py_truediv.
    destruct (size =? 0); cbn [negb]; [discriminate|].
    destruct (SFdiv prec emax (exact_of_Z leases) (exact_of_Z size));
      cbn [rbind]; try discriminate;
      destruct (py_mul_int _ 100); cbn [py_round]; discriminate.
Qed.

(** X16: the [remaining] field never shows a fraction of a second: the
    text of the enricher holds no dot, although the clock is read to the
    microsecond. *)
Theorem remaining_has_no_fraction (env : Env) (lease : Lease) (w : world) :
  exists d s,
    get_lease_data env lease w = (Ok d, tick w) /\
    dict_get "remaining" d = Some (PStr s) /\
    dotless s = true.
Proof.
  do 2 eexists. split; [apply get_lease_data_run|].
  split; [reflexivity|].
  unfold remaining_text. destruct (end_ lease) as [e|]; [|reflexivity].
  destruct (_ <=? e); [|reflexivity].
  rewrite <- str_timedelta_seconds_truncates.
  apply dotless_str_timedelta_seconds.
Qed.

(** ** The sort key inside [get_leases] *)

Lemma enriched_has_key (env : Env) (now : Z) (r : Lease) (k : string) :
  dict_get k (enriched env now r) <> None <-> In k lease_data_keys.
Proof. rewrite <- dict_get_keys. reflexivity. Qed.

(** X17: [get_leases] does not check its sort key itself.  With a key that
    is no field of the lease dictionaries the query fails with [KeyError]
    as soon as there is a lease to return, and returns the empty list when
    there is none; with one of the display fields, which the command line
    checks for, it never fails with [KeyError]. *)
Theorem get_leases_sort_key {A : Type} (config : Env) (a : A)
  (state : state_arg) (pool : option string) (sort : string) (w : world)
  (journal : list Lease) :
  read_leases config lease_file = Ok journal ->
  pool_known config pool = true ->
  (~ In sort lease_data_keys ->
   (passing state pool journal <> [] ->
    fst (get_leases config a state pool sort w) = Raise KeyError) /\
   (passing state pool journal = [] ->
    fst (get_leases config a state pool sort w) = Ok [])) /\
  (In sort (dict_keys lease_display_fields) ->
   fst (get_leases config a state pool sort w) <> Raise KeyError).
Proof.
  intros Hread Hpool.
  rewrite get_leases_run, select_leases_run, Hread, Hpool.
  fold (passing state pool journal). cbn [fst clock_reads journal_read].
  set (sel := dedupe (passing state pool journal)).
  split.
  - intros Hkey.
    assert (Hne : String.eqb sort "ip" = false).
    { apply String.eqb_neq. intros ->. apply Hkey. simpl. tauto. }
    unfold display_sort. rewrite Hne. split.
    + intros Hpass.
      destruct sel as [|r sel'] eqn:Esel.
      * exfalso. apply Hpass.
        destruct (passing state pool journal) as [|x l] eqn:E;
          [reflexivity|].
        assert (Hin : In (ip x) (map ip (dedupe (x :: l))))
          by (apply dedupe_addresses; simpl; auto).
        fold sel in Esel. unfold sel in Esel. rewrite Esel in Hin.
        destruct Hin.
      * cbn [enrich_from]. unfold py_sorted. cbn [rmap].
        unfold getitem at 1.
        destruct (dict_get sort (enriched config _ r)) eqn:E;
          [|reflexivity].
        exfalso. apply Hkey.
        apply (proj1 (enriched_has_key config
                        (utcnow_at config (clock_reads w)) r sort)).
        rewrite E. discriminate.
    + intros Hnil. unfold sel. rewrite Hnil. reflexivity.
  - intros Hkey H.
    assert (Hget : forall d, In d (enrich_from config (clock_reads w) sel) ->
                     exists v, getitem d sort = Ok v).
    { intros d (now & r & _ & ->)%In_enrich_from.
      simpl in Hkey. decompose [or] Hkey; subst; try contradiction;
        eexists; reflexivity. }
    unfold display_sort, py_sorted in H.
    destruct (String.eqb sort "ip").
    + destruct (rmap _ _) as [ks|e] eqn:E.
      * simpl in H. destruct (Nat.leb _ 1); [discriminate|].
        destruct (all_str ks); [discriminate|].
        destruct (all_int ks); discriminate.
      * simpl in H. injection H as ->.
        apply rmap_Raise in E as (d & Hd & E).
        destruct (In_enrich_from _ _ _ _ Hd) as (now & r & _ & ->).
        cbn [enriched getitem dict_get String.eqb Ascii.eqb Bool.eqb rbind]
          in E.
        destruct (ip_address config (PStr (ip r))) eqn:Eip;
          [discriminate|].
        simpl in E. injection E as ->.
        apply ip_address_raises in Eip. discriminate.
    + destruct (rmap _ _) as [ks|e] eqn:E.
      * simpl in H. destruct (Nat.leb _ 1); [discriminate|].
        destruct (all_str ks); [discriminate|].
        destruct (all_int ks); discriminate.
      * simpl in H. injection H as ->.
        apply rmap_Raise in E as (d & Hd & E).
        destruct (Hget d Hd) as [v Hv]. congruence.
Qed.

Lemma get_leases_sort_key_witness :
  fst (get_leases (sample_env [lease_old]) tt (StateList ["active"]) None
         "address" world0) = Raise KeyError /\
  fst (get_leases (sample_env []) tt (StateList ["active"]) None
         "address" world0) = Ok [].
Proof.
  assert (Hkey : ~ In "address" lease_data_keys)
    by (simpl; intuition discriminate).
  split.
  - apply (proj1 (get_leases_sort_key (sample_env [lease_old]) tt
                    (StateList ["active"]) None "address" world0
                    [lease_old] eq_refl eq_refl)); [exact Hkey|].
    discriminate.
  - apply (proj1 (get_leases_sort_key (sample_env []) tt
                    (StateList ["active"]) None "address" world0
                    [] eq_refl eq_refl)); [exact Hkey|].
    reflexivity.
Defined.

(** ** A lease run of the command line *)

(** X18: a lease run that passes the checks prints, after the warning of a
    stopped service if there is one, exactly one rendering of what
    [get_leases] returned, the table or the JSON list, and succeeds; it
    fails only when [get_leases] fails, with the same exception and with
    nothing more printed.  Rendering the table never fails. *)
Theorem main_leases_output (conf : Env) (args : Args) (w : world) :
  passes_checks conf args = true ->
  arg_leases args = true ->
  main conf args w
  = match get_leases conf lease_file (StateList (arg_state args))
            (arg_pool args) (arg_sort args) (warned conf w) with
    | (Ok out, w1) =>
        (Ok tt, printed (leases_output (arg_json args) out) w1)
    | (Raise e, w1) => (Raise e, w1)
    end.
Proof.
  intros Hchecks Hl. rewrite (main_checked _ _ _ Hchecks).
  unfold after_checks. rewrite Hl.
  assert (Hw : forall k : M unit,
            (when (negb (is_systemd_service_running conf
                           "isc-dhcp-server.service"))
                  (print (Text "WARNING: DHCP server is configured but not started. Data may be stale.")) ;;; k) w
            = k (warned conf w)).
  { intros k. unfold warned, bind, when.
    now destruct (is_systemd_service_running conf _). }
  rewrite Hw. unfold bind at 1.
  destruct (get_leases _ _ _ _ _ (warned conf w)) as [[out|e] w1] eqn:Hrun;
    [|reflexivity].
  unfold leases_output. destruct (arg_json args); [reflexivity|].
  unfold show_leases, bind, lift. rewrite show_leases_rows; [reflexivity|].
  intros d Hd k Hk.
  destruct (get_leases_results _ _ _ _ _ _ _ _ _ Hrun Hd)
    as (_ & now & r & _ & _ & _ & _ & ->).
  simpl in Hk. decompose [or] Hk; subst; try contradiction;
    cbn [enriched dict_get String.eqb Ascii.eqb Bool.eqb]; discriminate.
Qed.

Lemma main_leases_output_witness :
  main (sample_env [lease_old; lease_new]) all_leases_args world0
  = (Ok tt,
     printed
       (leases_output false
          [enriched (sample_env [lease_old; lease_new])
             (1000 * us_per_second) lease_new])
       (ticks 1 (journal_read lease_file world0))).
Proof.
  rewrite (main_leases_output (sample_env [lease_old; lease_new])
             all_leases_args world0 eq_refl eq_refl).
  reflexivity.
Defined.
